(** * Kuberpult: the manifest-repository engine of the cd-service

    A shallow embedding of the writer loop, the state view and the
    author handling of kuberpult
    ([services/cd-service/pkg/repository/repository.go] and
    [pkg/auth/auth.go]) together with the properties the specification
    states about them.

    Data is kept as the Go code has it: [uint64] values are [Z] with the
    range written out, strings are [string], Go [error] values are an
    inductive type with the wrappers the code uses, maps are [gmap].
    The libraries the code calls but does not contain (libgit2, billy,
    encoding/json, net/http, backoff) appear as interfaces or as scripted
    answers of the outside world. *)

From Stdlib Require Import ZArith Ascii String List Bool DecimalString.
From stdpp Require Import base option list sorting gmap strings.
Import ListNotations.
Local Open Scope string_scope.
Local Open Scope list_scope.

(** ** Go [error] values *)

(** The package-level sentinel errors ([errors.New] values compared by
    identity) that the code tests with [errors.Is]. *)
Inductive sentinel : Type :=
| SInvalidJson          (* var invalidJson = errors.New("JSON file is not valid") *)
| SPanic                (* var panicError = errors.New("Panic") *)
| SCanceled             (* context.Canceled *)
| SDeadlineExceeded     (* context.DeadlineExceeded *)
| SNotExist.            (* os.ErrNotExist *)

(** Error codes of [*git.GitError] that the code looks at. *)
Inductive GitErrorCode : Type :=
| ErrorCodeNonFastForward
| ErrorCodeNotFound
| ErrorCodeGeneric.

(** Errors of [encoding/json]; none of them wraps another error. *)
Inductive JsonError : Type :=
| SyntaxError (msg : string) (offset : Z)
| UnmarshalTypeError (field : string).

(** Errors of [strconv.ParseUint]. *)
Inductive NumError : Type :=
| ErrSyntax
| ErrRange.

Inductive error : Type :=
| ErrSentinel (s : sentinel)
| ErrText (msg : string)                    (* errors.New / fmt.Errorf without %w *)
| ErrWrap (msg : string) (inner : error)    (* fmt.Errorf("...%w", inner), *fs.PathError *)
| ErrGit (code : GitErrorCode)              (* *git.GitError *)
| ErrJson (j : JsonError)
| ErrNum (n : NumError) (input : string)    (* *strconv.NumError *)
| ErrInternal (inner : error)               (* &InternalError{inner: ...} *)
| ErrGrpcInternal (inner : error)           (* grpc.InternalError(ctx, ...) *)
| ErrGrpcCanceled (inner : error)           (* grpc.CanceledError(ctx, ...) *)
| ErrGrpcPublic (inner : error)             (* grpc.PublicError(ctx, ...) *)
| ErrHttpInternal (inner : error).          (* httperrors.InternalError(ctx, ...) *)

Definition sentinel_eqb (a b : sentinel) : bool :=
  match a, b with
  | SInvalidJson, SInvalidJson
  | SPanic, SPanic
  | SCanceled, SCanceled
  | SDeadlineExceeded, SDeadlineExceeded
  | SNotExist, SNotExist => true
  | _, _ => false
  end.

(** [errors.Is(err, target)] for a sentinel [target]: the chain of
    [Unwrap] is followed through the wrappers that have one ([%w] and
    path errors); the other error types are compared by identity only.
    [InternalError] and the constructors of the packages [grpc] and
    [httperrors] are declared outside the sources at hand; they are
    taken not to hand the error they wrap to [errors.Is].  The
    properties below that speak of [errors_Is] take its value as a
    hypothesis and do not rest on this choice. *)
Fixpoint errors_Is (err : error) (target : sentinel) : bool :=
  match err with
  | ErrSentinel s => sentinel_eqb s target
  | ErrWrap _ inner => errors_Is inner target
  | _ => false
  end.

Definition invalidJson : sentinel := SInvalidJson.
Definition panicError : error := ErrSentinel SPanic.

(** ** pkg/auth *)

Module auth.

Record DexAuthContext : Type := { Role : string }.

Record User : Type := {
  Email : string;
  Name : string;
  (* Optional. User role, only used if RBAC is enabled. *)
  DexAuthCtx : option DexAuthContext
}.

(** [s == ""] *)
Definition is_empty (s : string) : bool :=
  match s with EmptyString => true | _ => false end.

(** [func GetUserOrDefault(u *User, defaultUser User) User]; the pointer
    argument is an [option]. *)
Definition GetUserOrDefault (u : option User) (defaultUser : User) : User :=
  let userAdapted := {| Email := Email defaultUser;
                        Name := Name defaultUser;
                        DexAuthCtx := None |} in
  match u with
  | Some u' =>
      if negb (is_empty (Email u')) then
        (* if no username was specified, use email as username *)
        if is_empty (Name u') then
          {| Email := Email u'; Name := Email u'; DexAuthCtx := DexAuthCtx userAdapted |}
        else
          {| Email := Email u'; Name := Name u'; DexAuthCtx := DexAuthCtx userAdapted |}
      else userAdapted
  | None => userAdapted
  end.

(** A context as far as this package is concerned: what [ctx.Err()]
    answers and the value stored under [ctxMarkerKey]. *)
Record Context : Type := {
  ctx_Err : option sentinel;      (* None while the context is not done *)
  ctx_user : option User          (* ctx.Value(ctxMarkerKey).( *User ), None when absent or nil *)
}.

(** [func ReadUserFromContext(ctx context.Context) ( *User, error)] *)
Definition ReadUserFromContext (ctx : Context) : error + User :=
  match ctx_user ctx with
  | None => inl (ErrHttpInternal (ErrText "could not read user from context"))
  | Some u => inr u
  end.


End auth.

(** ** strconv *)

Module strconv.

Definition maxUint64 : Z := 18446744073709551615.

(** [cutoff = maxUint64/10 + 1]: the smallest [n] with [n*10] out of range. *)
Definition cutoff : Z := maxUint64 / 10 + 1.

Definition digit (c : ascii) : option Z :=
  let n := Z.of_nat (nat_of_ascii c) in
  if (48 <=? n)%Z && (n <=? 57)%Z then Some (n - 48)%Z else None.

(** The digit loop of [ParseUint(s, 10, 64)]: a byte that is not a
    decimal digit is a syntax error (letters are digits of a larger
    base and rejected by [d >= base]); the arithmetic is that of
    [uint64], with the wrap-around of [n + d] written out. *)
Fixpoint parse_loop (cs : list ascii) (n : Z) : Z * option NumError :=
  match cs with
  | [] => (n, None)
  | c :: cs' =>
      match digit c with
      | None => (0%Z, Some ErrSyntax)
      | Some d =>
          if (cutoff <=? n)%Z then (maxUint64, Some ErrRange)
          else
            let n10 := (n * 10)%Z in
            let n1 := ((n10 + d) mod 2 ^ 64)%Z in
            if (n1 <? n10)%Z || (maxUint64 <? n1)%Z
            then (maxUint64, Some ErrRange)
            else parse_loop cs' n1
      end
  end.

(** [strconv.ParseUint(s, 10, 64)] *)
Definition ParseUint (s : string) : Z * option NumError :=
  match s with
  | EmptyString => (0%Z, Some ErrSyntax)
  | _ => parse_loop (list_ascii_of_string s) 0%Z
  end.

End strconv.

(** ** billy.Filesystem *)

(** [os.FileInfo] as far as the state view reads it. *)
Record FileInfo : Type := {
  fi_Name : string;
  fi_IsDir : bool
}.

(** The part of the [billy.Filesystem] interface that the state view
    calls.  [Open] stands for [fs.Open] followed by [io.ReadAll]. *)
Class Filesystem (FS : Type) : Type := {
  ReadDir : FS -> string -> error + list FileInfo;
  Readlink : FS -> string -> error + string;
  Stat : FS -> string -> error + FileInfo;
  Open : FS -> string -> error + string;
  Join : FS -> list string -> string
}.

(** ** pkg/config *)

(** Modelled from the spec: [config.EnvironmentConfig] is declared in
    [pkg/config], which is not part of the sources at hand; the spec lists
    its fields as upstream, Argo CD config and an optional group name.
    The contents of the Argo CD config are kept as an opaque string. *)
Record EnvironmentConfig : Type := {
  Upstream : option string;
  ArgoCd : option string;
  EnvironmentGroup : option string
}.

Definition zeroEnvironmentConfig : EnvironmentConfig :=
  {| Upstream := None; ArgoCd := None; EnvironmentGroup := None |}.

(** What the code reaches outside the repository tree: [ioutil.ReadFile]
    on the host and the decoders of [encoding/json] at the two types the
    code decodes. *)
Class Host : Type := {
  ioutil_ReadFile : string -> error + string;
  json_Unmarshal_configs : string -> JsonError + gmap string EnvironmentConfig;
  json_Decode_config : string -> JsonError + EnvironmentConfig
}.

(** ** The state view *)

Definition Oid : Type := string.

Record State (FS : Type) : Type := {
  StFilesystem : FS;
  Commit : option Oid;             (* *git.Commit, by its id *)
  BootstrapMode : bool;
  EnvironmentConfigsPath : string
}.
Arguments StFilesystem {FS} _.
Arguments Commit {FS} _.
Arguments BootstrapMode {FS} _.
Arguments EnvironmentConfigsPath {FS} _.

(** Modelled from the spec: the constant [queueFileName] is declared in
    a file that is not part of the sources at hand; the spec names the
    link [queued_version]. *)
Definition queueFileName : string := "queued_version".

Section StateView.
Context {FS : Type} `{Filesystem FS} `{Host}.

(** The loop of [Releases] and of [GetApplicationReleases]: parse each
    name, append on success, skip otherwise. *)
Definition appendNumeric (result : list Z) (name : string) : list Z :=
  match strconv.ParseUint name with
  | (i, None) => result ++ [i]
  | (_, Some _) => result  (* just skip *)
  end.

(** [func (s *State) Releases(application string) ([]uint64, error)] *)
Definition Releases (s : State FS) (application : string) : error + list Z :=
  let fs := StFilesystem s in
  match ReadDir fs (Join fs ["applications"; application; "releases"]) with
  | inl err => inl err
  | inr entries => inr (fold_left (fun result e => appendNumeric result (fi_Name e)) entries [])
  end.

(** [func names(fs billy.Filesystem, path string) ([]string, error)] *)
Definition names (fs : FS) (path : string) : error + list string :=
  match ReadDir fs path with
  | inl err => inl err
  | inr files => inr (fold_left (fun result app => result ++ [fi_Name app]) files [])
  end.

(** [sort.Slice(result, func(i, j int) bool { return result[i] < result[j] })] *)
Definition sort_Slice (result : list Z) : list Z := merge_sort Z.le result.

(** [func (s *State) GetApplicationReleases(application string) ([]uint64, error)] *)
Definition GetApplicationReleases (s : State FS) (application : string) : error + list Z :=
  let fs := StFilesystem s in
  match names fs (Join fs ["applications"; application; "releases"]) with
  | inl err => inl err
  | inr ns => inr (sort_Slice (fold_left appendNumeric ns []))
  end.

(** [func (s *State) readSymlink(environment, application, symlinkName string) ( *uint64, error)];
    both components of the Go result are kept, since the last branch
    returns the pointer together with the parse error. *)
Definition readSymlink (s : State FS) (environment application symlinkName : string)
  : option Z * option error :=
  let fs := StFilesystem s in
  let version := Join fs ["environments"; environment; "applications"; application; symlinkName] in
  match Readlink fs version with
  | inl err =>
      if errors_Is err SNotExist then
        (* if the link does not exist, we return nil *)
        (None, None)
      else (None, Some (ErrWrap ("failed reading symlink " +:+ version) err))
  | inr lnk =>
      let target := Join fs ["environments"; environment; "applications"; application; lnk] in
      match Stat fs target with
      | inl err =>
          (* if the file that the link points to does not exist, that's an error *)
          (None, Some (ErrWrap ("failed stating " +:+ target) err))
      | inr stat =>
          let '(res, err) := strconv.ParseUint (fi_Name stat) in
          (Some res, option_map (fun n => ErrNum n (fi_Name stat)) err)
      end
  end.

Definition GetEnvironmentApplicationVersion (s : State FS) (environment application : string) :=
  readSymlink s environment application "version".

Definition GetQueuedVersion (s : State FS) (environment application : string) :=
  readSymlink s environment application queueFileName.

(** [func decodeJsonFile(fs billy.Filesystem, path string, out interface{}) error]
    at the type [config.EnvironmentConfig].  [wrapFileError] is not in
    the sources at hand; it is taken to keep the cause in the chain, as
    the caller's test [errors.Is(err, os.ErrNotExist)] expects. *)
Definition decodeJsonFile (fs : FS) (path : string) : error + EnvironmentConfig :=
  match Open fs path with
  | inl err => inl (ErrWrap ("could not decode json file " +:+ path) err)
  | inr content =>
      match json_Decode_config content with
      | inl j => inl (ErrJson j)
      | inr c => inr c
      end
  end.

(** The loop over [environments/*] of the second branch of
    [GetEnvironmentConfigs]. *)
Fixpoint readEnvironmentConfigs (fs : FS) (envs : list FileInfo)
    (result : gmap string EnvironmentConfig) : error + gmap string EnvironmentConfig :=
  match envs with
  | [] => inr result
  | env :: envs' =>
      let fileName := Join fs ["environments"; fi_Name env; "config.json"] in
      match decodeJsonFile fs fileName with
      | inl err =>
          if errors_Is err SNotExist then
            readEnvironmentConfigs fs envs' (<[fi_Name env := zeroEnvironmentConfig]> result)
          else inl (ErrWrap (fileName +:+ " : ") (ErrSentinel invalidJson))
      | inr config =>
          readEnvironmentConfigs fs envs' (<[fi_Name env := config]> result)
      end
  end.

(** [func (s *State) GetEnvironmentConfigs() (map[string]config.EnvironmentConfig, error)] *)
Definition GetEnvironmentConfigs (s : State FS) : error + gmap string EnvironmentConfig :=
  if BootstrapMode s then
    match ioutil_ReadFile (EnvironmentConfigsPath s) with
    | inl err =>
        if errors_Is err SNotExist then inr ∅ else inl err
    | inr buf =>
        match json_Unmarshal_configs buf with
        | inl j => inl (ErrJson j)
        | inr result => inr result
        end
    end
  else
    let fs := StFilesystem s in
    match ReadDir fs "environments" with
    | inl err => inl err
    | inr envs => readEnvironmentConfigs fs envs ∅
    end.

End StateView.

(** ** The repository and the outside world *)

Record RepositoryConfig : Type := {
  cfg_URL : string;
  cfg_CommitterEmail : string;
  cfg_CommitterName : string;
  cfg_Branch : string;
  cfg_BootstrapMode : bool;
  cfg_EnvironmentConfigsPath : string;
  cfg_ArgoInsecure : bool;
  (* if set, kuberpult will generate push events to argoCd whenever it
     writes to the manifest repo *)
  cfg_ArgoWebhookUrl : string;
  cfg_WebURL : string
}.

Definition maxArgoRequests : nat := 3.

(** [git.Signature], without the time stamp. *)
Record Signature : Type := {
  sig_Name : string;
  sig_Email : string
}.

(** A commit object of the object database. *)
Record CommitObj : Type := {
  c_id : Oid;
  c_author : Signature;
  c_committer : Signature;
  c_message : string;
  c_tree : Oid;
  c_parent : option Oid
}.

Record AppEnv : Type := { App : string; Env : string }.
Record RootApp : Type := { RootEnv : string }.
Record CommitIds : Type := { Previous : option Oid; Current : Oid }.

Record TransformerResult : Type := {
  ChangedApps : list AppEnv;
  DeletedRootApps : list RootApp;
  Commits : option CommitIds
}.

Definition emptyTransformerResult : TransformerResult :=
  {| ChangedApps := []; DeletedRootApps := []; Commits := None |}.

(** [func (r *TransformerResult) Combine(other *TransformerResult)] *)
Definition Combine (r : TransformerResult) (other : option TransformerResult) : TransformerResult :=
  match other with
  | None => r
  | Some o =>
      {| ChangedApps := ChangedApps r ++ ChangedApps o;
         DeletedRootApps := DeletedRootApps r ++ DeletedRootApps o;
         Commits := match Commits r with None => Commits o | Some c => Some c end |}
  end.

(** [func CombineArray(others []*TransformerResult) *TransformerResult] *)
Definition CombineArray (others : list (option TransformerResult)) : TransformerResult :=
  fold_left Combine others emptyTransformerResult.

(** The [Transformer] interface: [Transform(ctx, state)] returns a commit
    message and a change-set or fails; the writes it stages in
    [state.Filesystem] are returned as the new filesystem. *)
Definition Transformer (FS : Type) : Type :=
  auth.Context -> State FS -> error + (string * option TransformerResult * FS).

(** An element of the write queue.  [result] is the identity of its
    result channel. *)
Record element (FS : Type) : Type := {
  ctx : auth.Context;
  transformers : list (Transformer FS);
  result : nat
}.
Arguments ctx {FS} _.
Arguments transformers {FS} _.
Arguments result {FS} _.

(** What the remote answers to one [remote.Push]: the error of the call
    and the [(refName, status)] pairs given to the
    [PushUpdateReferenceCallback]. *)
Record PushOutcome : Type := {
  push_err : option error;
  push_updates : list (string * string)
}.

(** What one [FetchAndReset] meets: a failing fetch, a failure of a
    later step (reference lookup or creation, object lookup, reset), or
    the commit the remote branch points to. *)
Inductive FetchOutcome : Type :=
| FetchFailed (err : error)
| ResetFailed (err : error)
| Fetched (c : CommitObj).

(** What one webhook POST meets: [client.Do] fails, or a response with
    a status code. *)
Inductive HttpOutcome : Type :=
| HttpFailed (msg : string)
| HttpStatus (code : Z).

(** [v1alpha1.PushPayload] as the dispatcher fills it. *)
Record PushPayload : Type := {
  pl_url : string;
  pl_Ref : string;
  pl_Before : string;
  pl_After : string;
  pl_HTMLURL : string;
  pl_DefaultBranch : string;
  pl_Added : list string;
  pl_Modified : list string;
  pl_Removed : list string
}.

(** The observable effects of the writer, in the order they happen. *)
Inductive event : Type :=
| EvResult (ch : nat) (err : option error)         (* el.result <- err *)
| EvApply (ch : nat)                               (* r.ApplyTransformers(e.ctx, e.transformers...) *)
| EvFetchAndReset                                  (* r.FetchAndReset(...) *)
| EvPush (err : option error) (success : bool)     (* one pushAction(), with *success afterwards *)
| EvSleep (d : Z)                                  (* time.Sleep / backoff wait *)
| EvWebhookPost (try : nat) (payload : PushPayload) (* one client.Do(req) *)
| EvNotify                                         (* r.notify.Notify() *)
| EvPanic.                                         (* a nil dereference *)

(** The mutable state the writer goroutine works on, and the scripted
    answers of the remote and of Argo CD.  A script that has run out
    answers like an unreachable peer. *)
Record World (FS : Type) : Type := {
  head : option Oid;                 (* refs/heads/<branch> of the local repository *)
  odb : list CommitObj;              (* commits of the object database *)
  queue : list (element FS);         (* what is buffered in r.queue.elements *)
  remote_pushes : list PushOutcome;
  remote_fetches : list FetchOutcome;
  argo_responses : list HttpOutcome;
  trace : list event
}.
Arguments head {FS} _.
Arguments odb {FS} _.
Arguments queue {FS} _.
Arguments remote_pushes {FS} _.
Arguments remote_fetches {FS} _.
Arguments argo_responses {FS} _.
Arguments trace {FS} _.

(** The steps of [ApplyTransformers] that are taken as an interface.
    [NewEmptyTreeBuildFS], [NewTreeBuildFS] and [Insert] (package [fs]),
    [CreateCommitFromIds] (libgit2) and [UpdateDatadogMetrics] are not
    part of the sources at hand.  [afterTransform] is part of
    [repository.go], but it is not translated here: it renders the Argo
    CD manifests through [argocd.Render] and writes them with the
    filesystem's write operations, none of which is at hand, so only its
    outcome (an error, or the tree it leaves) is kept.  Nothing is
    assumed about any of these steps: the properties below hold for
    every instance. *)
Class Backend (FS : Type) : Type := {
  NewEmptyTreeBuildFS : FS;
  NewTreeBuildFS : Oid -> FS;
  Insert : FS -> error + Oid;
  CreateCommitFromIds :
    string -> Signature -> Signature -> string -> Oid -> option Oid -> error + Oid;
  UpdateDatadogMetrics : State FS -> option error;
  afterTransform : RepositoryConfig -> State FS -> error + FS
}.

(** The [repository] value: its configuration and its back-off policy,
    given as the waits [NextBackOff] hands out before it says [Stop]. *)
Record repository : Type := {
  config : RepositoryConfig;
  backOffProvider : list Z
}.

(** [strings.Join(elems, sep)] *)
Fixpoint strings_Join (elems : list string) (sep : string) : string :=
  match elems with
  | [] => ""
  | [s] => s
  | s :: rest => s +:+ sep +:+ strings_Join rest sep
  end.

Definition newline : string := String (ascii_of_nat 10) EmptyString.

Section Writer.
Context {FS : Type} `{Backend FS}.

Definition emit (ev : event) (w : World FS) : World FS :=
  {| head := head w; odb := odb w; queue := queue w;
     remote_pushes := remote_pushes w; remote_fetches := remote_fetches w;
     argo_responses := argo_responses w; trace := trace w ++ [ev] |}.

(** [el.result <- err] *)
Definition send (el : element FS) (err : option error) (w : World FS) : World FS :=
  emit (EvResult (result el) err) w.

(** [func (r *repository) StateAt(oid *git.Oid) ( *State, error)] at
    [oid == nil], the only way the writer calls it.  The libgit2 lookups
    are read off the world: [RevparseSingle] of the branch is [head]
    (not found when there is none), and [AsCommit] finds the commit in
    [odb] or fails. *)
Definition StateAt (r : repository) (w : World FS) : error + State FS :=
  match head w with
  | None =>
      inr {| StFilesystem := NewEmptyTreeBuildFS; Commit := None;
             BootstrapMode := cfg_BootstrapMode (config r);
             EnvironmentConfigsPath := cfg_EnvironmentConfigsPath (config r) |}
  | Some oid =>
      match find (fun c => String.eqb (c_id c) oid) (odb w) with
      | None => inl (ErrGit ErrorCodeGeneric)
      | Some commit =>
          inr {| StFilesystem := NewTreeBuildFS (c_tree commit); Commit := Some (c_id commit);
                 BootstrapMode := cfg_BootstrapMode (config r);
                 EnvironmentConfigsPath := cfg_EnvironmentConfigsPath (config r) |}
      end
  end.

Definition withFilesystem (s : State FS) (fs : FS) : State FS :=
  {| StFilesystem := fs; Commit := Commit s; BootstrapMode := BootstrapMode s;
     EnvironmentConfigsPath := EnvironmentConfigsPath s |}.

(** The loop over the transformers in [ApplyTransformersInternal]. *)
Fixpoint transformAll (c : auth.Context) (ts : list (Transformer FS)) (state : State FS)
    (commitMsg : list string) (changes : list (option TransformerResult))
  : error + (list string * State FS * list (option TransformerResult)) :=
  match ts with
  | [] => inr (commitMsg, state, changes)
  | t :: ts' =>
      match t c state with
      | inl err => inl err
      | inr (msg, subChanges, fs') =>
          transformAll c ts' (withFilesystem state fs') (commitMsg ++ [msg]) (changes ++ [subChanges])
      end
  end.

(** [func (r *repository) ApplyTransformersInternal(ctx, transformers...)] *)
Definition ApplyTransformersInternal (r : repository) (c : auth.Context)
    (ts : list (Transformer FS)) (w : World FS)
  : error + (list string * State FS * list (option TransformerResult)) :=
  match StateAt r w with
  | inl err => inl (ErrGrpcInternal (ErrWrap "failure in StateAt" err))
  | inr state => transformAll c ts state [] []
  end.

Definition addCommit (commit : CommitObj) (w : World FS) : World FS :=
  {| head := Some (c_id commit); odb := commit :: odb w; queue := queue w;
     remote_pushes := remote_pushes w; remote_fetches := remote_fetches w;
     argo_responses := argo_responses w; trace := trace w |}.

(** [func (r *repository) ApplyTransformers(ctx, transformers...) ( *TransformerResult, error)] *)
Definition ApplyTransformers (r : repository) (c : auth.Context)
    (ts : list (Transformer FS)) (w : World FS) : (error + TransformerResult) * World FS :=
  match ApplyTransformersInternal r c ts w with
  | inl err => (inl err, w)
  | inr (commitMsg, state, changes) =>
      match UpdateDatadogMetrics state with
      | Some err => (inl err, w)
      | None =>
          match afterTransform (config r) state with
          | inl err => (inl (ErrGrpcInternal (ErrWrap "failure in afterTransform" err)), w)
          | inr fs' =>
              match Insert fs' with
              | inl err => (inl (ErrInternal err), w)
              | inr treeId =>
                  let committer := {| sig_Name := cfg_CommitterName (config r);
                                      sig_Email := cfg_CommitterEmail (config r) |} in
                  match auth.ReadUserFromContext c with
                  | inl err => (inl err, w)
                  | inr user =>
                      let author := {| sig_Name := auth.Name user; sig_Email := auth.Email user |} in
                      (* the commit can be nil, if it's the first commit in the repo *)
                      let rev := Commit state in
                      let oldCommitId := rev in
                      let message := strings_Join commitMsg newline in
                      match CreateCommitFromIds ("refs/heads/" +:+ cfg_Branch (config r))
                              author committer message treeId rev with
                      | inl err => (inl (ErrGrpcInternal (ErrWrap "createCommitFromIds failed" err)), w)
                      | inr newCommitId =>
                          let res := CombineArray changes in
                          (inr {| ChangedApps := ChangedApps res;
                                  DeletedRootApps := DeletedRootApps res;
                                  Commits := Some {| Previous := oldCommitId; Current := newCommitId |} |},
                           addCommit {| c_id := newCommitId; c_author := author;
                                        c_committer := committer; c_message := message;
                                        c_tree := treeId; c_parent := rev |} w)
                      end
                  end
              end
          end
      end
  end.

(** [func (r *repository) FetchAndReset(ctx context.Context) error].
    The function is a sequence of libgit2 calls (fetch, reference lookup
    and creation, object lookup, reset); here the next scripted
    [FetchOutcome] says which of them fails, if any.  A failing fetch is
    wrapped in [InternalError], the later failures are returned as they
    are, and on success the local branch points to the fetched commit. *)
Definition FetchAndReset (r : repository) (w : World FS) : option error * World FS :=
  let w1 := emit EvFetchAndReset w in
  let rest := tail (remote_fetches w1) in
  let popped (hd : option Oid) (db : list CommitObj) :=
    {| head := hd; odb := db; queue := queue w1;
       remote_pushes := remote_pushes w1; remote_fetches := rest;
       argo_responses := argo_responses w1; trace := trace w1 |} in
  match remote_fetches w1 with
  | [] => (Some (ErrInternal (ErrGit ErrorCodeGeneric)), w1)
  | FetchFailed err :: _ => (Some (ErrInternal err), popped (head w1) (odb w1))
  | ResetFailed err :: _ => (Some err, popped (head w1) (odb w1))
  | Fetched commit :: _ => (None, popped (Some (c_id commit)) (commit :: odb w1))
  end.

End Writer.

(** ** The writer loop *)

(** [git.PushOptions], reduced to the callback the writer installs: given
    the reference name and status the remote reports and the current
    value of [*success], the new value of [*success]. *)
Record PushOptions : Type := {
  PushUpdateReferenceCallback : string -> string -> bool -> bool
}.

(** [type PushUpdateFunc func(string, *bool) git.PushUpdateReferenceCallback] *)
Definition PushUpdateFunc : Type := string -> string -> string -> bool -> bool.

(** [func defaultPushUpdate(branch string, success *bool) git.PushUpdateReferenceCallback] *)
Definition defaultPushUpdate : PushUpdateFunc :=
  fun branch refName status _ =>
    let expectedRefName := "refs/heads/" +:+ branch in
    (* if we were successful the status is empty and the ref contains our branch: *)
    String.eqb refName expectedRefName && String.eqb status "".

(** What [backoff.Retry] sees of one run of the operation: success, an
    error, or an error marked with [backoff.Permanent]. *)
Inductive OpResult : Type :=
| OpOk
| OpErr (err : error)
| OpPermanent (err : error).

(** [err.( *git.GitError)] with [gerr.Code == git.ErrorCodeNonFastForward] *)
Definition isNonFastForward (err : error) : bool :=
  match err with
  | ErrGit ErrorCodeNonFastForward => true
  | _ => false
  end.

(** [err != nil] *)
Definition notNil (err : option error) : bool :=
  match err with Some _ => true | None => false end.

Section WriterLoop.
Context {FS : Type} `{Backend FS}.

(** [type PushActionFunc func() error]: one push attempt, which also
    moves the flag [pushSuccess] through the installed callback. *)
Definition PushActionFunc : Type := bool -> World FS -> option error * bool * World FS.
Definition PushActionCallbackFunc : Type := PushOptions -> repository -> PushActionFunc.

Definition popPush (w : World FS) : World FS :=
  {| head := head w; odb := odb w; queue := queue w;
     remote_pushes := tail (remote_pushes w); remote_fetches := remote_fetches w;
     argo_responses := argo_responses w; trace := trace w |}.

Definition unreachableRemote : PushOutcome :=
  {| push_err := Some (ErrGit ErrorCodeGeneric); push_updates := [] |}.

(** [func DefaultPushActionCallback(pushOptions git.PushOptions, r *repository) PushActionFunc].
    [remote.Push] under [useRemote] is the next scripted [PushOutcome]:
    its error is the error of the call (a network timeout included), and
    its reference updates are fed to the installed callback. *)
Definition DefaultPushActionCallback : PushActionCallbackFunc :=
  fun pushOptions r success w =>
    let o := hd unreachableRemote (remote_pushes w) in
    let success' :=
      fold_left (fun s u => PushUpdateReferenceCallback pushOptions (fst u) (snd u) s)
                (push_updates o) success in
    (push_err o, success', emit (EvPush (push_err o) success') (popPush w)).

(** [backoff.Retry(operation, b)]: run the operation until it succeeds,
    fails permanently, or the policy says [Stop]. *)
Fixpoint backoff_Retry {S : Type} (operation : S -> OpResult * S) (sleep : Z -> S -> S)
    (b : list Z) (s : S) {struct b} : option error * S :=
  match operation s with
  | (OpOk, s1) => (None, s1)
  | (OpPermanent err, s1) => (Some err, s1)
  | (OpErr err, s1) =>
      match b with
      | [] => (Some err, s1)
      | next :: b' => backoff_Retry operation sleep b' (sleep next s1)
      end
  end.

(** The closure [Push] hands to [backoff.Retry]. *)
Definition pushOperation (pushAction : PushActionFunc) (s : bool * World FS)
  : OpResult * (bool * World FS) :=
  let '(err, success, w) := pushAction (fst s) (snd s) in
  match err with
  | None => (OpOk, (success, w))
  | Some e =>
      if isNonFastForward e then (OpPermanent e, (success, w))
      else (OpErr e, (success, w))
  end.

(** [func (r *repository) Push(ctx context.Context, pushAction func() error) error] *)
Definition Push (r : repository) (pushAction : PushActionFunc) (s : bool * World FS)
  : option error * (bool * World FS) :=
  backoff_Retry (pushOperation pushAction)
                (fun d s => (fst s, emit (EvSleep d) (snd s)))
                (backOffProvider r) s.

Definition ApplyResult : Type :=
  list (element FS) * option error * option TransformerResult * World FS.

(** The [for] loop of [applyElements].  [kept] is [elements[:i]],
    [rest] is [elements[i:]]; [restart] is the recursive call
    [r.applyElements(elements, false)], present exactly when
    [allowFetchAndReset] holds. *)
Fixpoint applyLoop (r : repository)
    (restart : option (list (element FS) -> World FS -> ApplyResult))
    (kept rest : list (element FS)) (changes : TransformerResult) (w : World FS)
  : ApplyResult :=
  match rest with
  | [] => (kept, None, Some changes, w)
  | e :: rest' =>
      let '(res, w1) :=
        ApplyTransformers r (ctx e) (transformers e) (emit (EvApply (result e)) w) in
      match res with
      | inr subChanges =>
          applyLoop r restart (kept ++ [e]) rest' (Combine changes (Some subChanges)) w1
      | inl applyErr =>
          match (if errors_Is applyErr invalidJson then restart else None) with
          | Some again =>
              (* Invalid state. fetch and reset and redo *)
              let '(err, w2) := FetchAndReset r w1 in
              match err with
              | Some err => (kept ++ e :: rest', Some err, None, w2)
              | None => again (kept ++ e :: rest') w2
              end
          | None =>
              (* here, we keep all elements "behind i" *)
              applyLoop r restart kept rest' changes (send e (Some applyErr) w1)
          end
      end
  end.

(** The recursive call of [applyElements], available while
    [allowFetchAndReset] holds. *)
Definition recovery (r : repository) (allowFetchAndReset : bool)
  : option (list (element FS) -> World FS -> ApplyResult) :=
  if allowFetchAndReset
  then Some (fun els w' => applyLoop r None [] els emptyTransformerResult w')
  else None.

(** [func (r *repository) applyElements(elements []element, allowFetchAndReset bool)
      ([]element, error, *TransformerResult)] *)
Definition applyElements (r : repository) (elements : list (element FS))
    (allowFetchAndReset : bool) (w : World FS) : ApplyResult :=
  applyLoop r (recovery r allowFetchAndReset) [] elements emptyTransformerResult w.

(** The loop of [drainQueue] over what the channel holds. *)
Fixpoint drainLoop (q : list (element FS)) (elements : list (element FS)) (w : World FS)
  : list (element FS) * World FS :=
  match q with
  | [] => (elements, w)
  | f :: q' =>
      (* Check that the item is not already cancelled *)
      match auth.ctx_Err (ctx f) with
      | Some cerr => drainLoop q' elements (send f (Some (ErrSentinel cerr)) w)
      | None => drainLoop q' (elements ++ [f]) w
      end
  end.

(** [func (r *repository) drainQueue() []element] *)
Definition drainQueue (w : World FS) : list (element FS) * World FS :=
  drainLoop (queue w) []
    {| head := head w; odb := odb w; queue := [];
       remote_pushes := remote_pushes w; remote_fetches := remote_fetches w;
       argo_responses := argo_responses w; trace := trace w |}.

(** *** The webhook dispatcher *)

Definition popArgo (w : World FS) : World FS :=
  {| head := head w; odb := odb w; queue := queue w;
     remote_pushes := remote_pushes w; remote_fetches := remote_fetches w;
     argo_responses := tail (argo_responses w); trace := trace w |}.

(** [func contains(s []int, e int) bool] *)
Fixpoint contains (s : list Z) (e : Z) : bool :=
  match s with
  | [] => false
  | a :: s' => if (a =? e)%Z then true else contains s' e
  end.

(** [func doWebhookPostRequest(ctx, data, repoConfig, retryCounter) (error, bool)].
    [client.Do] is the next scripted [HttpOutcome].  The branch for a
    failing [json.MarshalIndent] is left out: the payload holds strings
    only, and marshalling it is taken to succeed. *)
Definition doWebhookPostRequest (data : PushPayload) (repoConfig : RepositoryConfig)
    (retryCounter : nat) (w : World FS) : option error * bool * World FS :=
  let w1 := emit (EvWebhookPost retryCounter data) (popArgo w) in
  match hd (HttpFailed "unreachable") (argo_responses w) with
  | HttpFailed msg =>
      (Some (ErrText ("doWebhookPostRequest: could not send request: " +:+ msg)), false, w1)
  | HttpStatus StatusCode =>
      let validResponseCodes := [200%Z] in
      if (500 <=? StatusCode)%Z then
        (Some (ErrText "doWebhookPostRequest: invalid status code from argo"), true, w1)
      else if contains validResponseCodes StatusCode then
        (None, false, w1)
      else
        (* in any other case we should not do a retry (e.g. status 4xx) *)
        (Some (ErrText "doWebhookPostRequest: invalid status code from argo"), false, w1)
  end.

(** The retry loop of [sendWebhookToArgoCd]; [tries] are the values of
    [i] still to come.  The result is the flag [success]. *)
Fixpoint webhookLoop (data : PushPayload) (repoConfig : RepositoryConfig)
    (tries : list nat) (w : World FS) : bool * World FS :=
  match tries with
  | [] => (false, w)
  | i :: tries' =>
      let '(err, shouldRetry, w1) := doWebhookPostRequest data repoConfig i w in
      if notNil err && shouldRetry then
        if shouldRetry then
          (* we're still in a request here, we can't wait too long: *)
          webhookLoop data repoConfig tries' (emit (EvSleep (100 * Z.of_nat i)) w1)
        else (false, w1)
      else (true, w1)
  end.

(** The payload [sendWebhookToArgoCd] builds from the change-set. *)
Definition argoPayload (r : repository) (changes : TransformerResult) (ids : CommitIds)
  : PushPayload :=
  let modified :=
    map (fun change =>
           "environments/" +:+ Env change +:+ "/applications/" +:+ App change
             +:+ "/manifests/manifests.yaml")
        (ChangedApps changes) in
  let deleted :=
    map (fun change => "argocd/" +:+ "v1alpha1" +:+ "/" +:+ RootEnv change +:+ ".yaml")
        (DeletedRootApps changes) in
  {| pl_url := cfg_ArgoWebhookUrl (config r) +:+ "/api/webhook";
     pl_Ref := "refs/heads/" +:+ cfg_Branch (config r);
     pl_Before := match Previous ids with Some p => p | None => "" end;
     pl_After := Current ids;
     pl_HTMLURL := cfg_WebURL (config r);
     pl_DefaultBranch := cfg_Branch (config r);
     pl_Added := [];
     pl_Modified := modified;
     pl_Removed := deleted |}.

(** [func (r *repository) sendWebhookToArgoCd(ctx, logger, changes *TransformerResult)].
    The first component of the result tells whether the call panicked
    on a nil [changes] or [changes.Commits]; the second is [success]. *)
Definition sendWebhookToArgoCd (r : repository) (changes : option TransformerResult)
    (w : World FS) : bool * bool * World FS :=
  match changes with
  | None => (true, false, emit EvPanic w)
  | Some ch =>
      match Commits ch with
      | None => (true, false, emit EvPanic w)
      | Some ids =>
          let '(success, w1) :=
            webhookLoop (argoPayload r ch ids) (config r) (seq 1 maxArgoRequests) w in
          (false, success, w1)
      end
  end.

(** The deferred function of [ProcessQueueOnce]:
    [for _, el := range elements { el.result <- err }]. *)
Definition deferred (elements : list (element FS)) (err : option error) (w : World FS)
  : World FS :=
  fold_left (fun w' el => send el err w') elements w.

(** The end of [ProcessQueueOnce], from the span ["PostPush"] on. *)
Definition postPush (r : repository) (changes : option TransformerResult)
    (elements : list (element FS)) (err : option error) (w : World FS) : World FS :=
  let '(panicked, _, w1) :=
    if negb (auth.is_empty (cfg_ArgoWebhookUrl (config r)))
    then sendWebhookToArgoCd r changes w
    else (false, false, w) in
  if panicked then deferred elements err w1
  else deferred elements err (emit EvNotify w1).

Definition pushFailedMessage (r : repository) : string :=
  "could not push to manifest repository '" +:+ cfg_URL (config r) +:+ "' on branch '"
    +:+ cfg_Branch (config r)
    +:+ "' - this indicates that the ssh key does not have write access".

Definition branchProtectedMessage (r : repository) : string :=
  "failed to push - this indicates that branch protection is enabled in '"
    +:+ cfg_URL (config r) +:+ "' on branch '" +:+ cfg_Branch (config r) +:+ "'".

(** [func (r *repository) ProcessQueueOnce(ctx, e element, callback PushUpdateFunc,
      pushAction PushActionCallbackFunc)].  The deferred function is
    written out at every [return]; logging and tracing spans are left
    out, and so is the outer [ctx], which the code uses for them and for
    building the gRPC errors only.  Whether a context is done is read
    once, when the element is picked up. *)
Definition ProcessQueueOnce (r : repository) (e : element FS)
    (callback : PushUpdateFunc) (pushAction : PushActionCallbackFunc)
    (w : World FS) : World FS :=
  (* var err error = panicError; elements := []element{e}; defer ... *)
  (* Check that the first element is not already canceled *)
  match auth.ctx_Err (ctx e) with
  | Some cerr =>
      deferred [e] (Some panicError) (send e (Some (ErrSentinel cerr)) w)
  | None =>
      (* Try to fetch more items from the queue in order to push more things together *)
      let '(more, w) := drainQueue w in
      let elements := [e] ++ more in
      let pushSuccess := true in
      let pushOptions :=
        {| PushUpdateReferenceCallback := callback (cfg_Branch (config r)) |} in
      (* Apply the items *)
      let '(elements, err, changes, w) := applyElements r elements true w in
      if notNil err then deferred elements err w
      else if (length elements =? 0)%nat then deferred elements err w
      else
        (* Try pushing once *)
        let '(err, (pushSuccess, w)) := Push r (pushAction pushOptions r) (pushSuccess, w) in
        match err with
        | Some perr =>
            (* If it doesn't work because the branch diverged, try reset and apply again. *)
            if isNonFastForward perr then
              let '(err, w) := FetchAndReset r w in
              if notNil err then deferred elements err w
              else
                (* Apply the items *)
                let '(elements, err, _, w) := applyElements r elements false w in
                if notNil err || (length elements =? 0)%nat then deferred elements err w
                else
                  let '(pushErr, (_, w)) := Push r (pushAction pushOptions r) (pushSuccess, w) in
                  let err := match pushErr with
                             | Some pe => Some (ErrInternal pe)
                             | None => err
                             end in
                  postPush r changes elements err w
            else if errors_Is perr SDeadlineExceeded || errors_Is perr SCanceled then
              postPush r changes elements (Some (ErrGrpcCanceled perr)) w
            else
              postPush r changes elements
                (Some (ErrGrpcPublic (ErrText (pushFailedMessage r)))) w
        | None =>
            if negb pushSuccess then
              postPush r changes elements (Some (ErrText (branchProtectedMessage r))) w
            else postPush r changes elements None w
        end
  end.

End WriterLoop.

(** ** Concrete instances

    An in-memory filesystem, a host and a back end on which the
    definitions above can be run. *)

Module Examples.

Inductive Node : Type :=
| NDir (entries : list FileInfo)
| NFile (content : string)
| NLink (target : string).

(** Paths with their nodes; directories list their entries in the order
    [ReadDir] yields them. *)
Definition MemFS : Type := list (string * Node).

Fixpoint split_on (sep : ascii) (s : string) (cur : string) : list string :=
  match s with
  | EmptyString => [cur]
  | String c s' =>
      if Ascii.eqb c sep then cur :: split_on sep s' ""
      else split_on sep s' (cur +:+ String c "")
  end.

(** Lexical processing of [.] and [..] as [filepath.Clean] does it for
    relative paths. *)
Fixpoint cleanSegs (segs : list string) (stack : list string) : list string :=
  match segs with
  | [] => rev stack
  | seg :: rest =>
      if String.eqb seg "" || String.eqb seg "." then cleanSegs rest stack
      else if String.eqb seg ".." then
        match stack with
        | top :: stack' =>
            if String.eqb top ".." then cleanSegs rest (seg :: stack)
            else cleanSegs rest stack'
        | [] => cleanSegs rest [seg]
        end
      else cleanSegs rest (seg :: stack)
  end.

Definition joinPath (elems : list string) : string :=
  strings_Join (cleanSegs (flat_map (fun e => split_on "/" e "") elems) []) "/".

Definition basename (path : string) : string :=
  default "" (last (split_on "/" path "")).

Definition lookupNode (fs : MemFS) (path : string) : option Node :=
  option_map snd (find (fun p => String.eqb (fst p) path) fs).

Definition notExist (op path : string) : error :=
  ErrWrap (op +:+ " " +:+ path) (ErrSentinel SNotExist).

#[global] Instance MemFS_Filesystem : Filesystem MemFS := {|
  ReadDir fs path :=
    match lookupNode fs path with
    | Some (NDir entries) => inr entries
    | Some _ => inl (ErrText "not a directory")
    | None => inl (notExist "open" path)
    end;
  Readlink fs path :=
    match lookupNode fs path with
    | Some (NLink target) => inr target
    | Some _ => inl (ErrText "not a symlink")
    | None => inl (notExist "readlink" path)
    end;
  Stat fs path :=
    match lookupNode fs path with
    | Some (NDir _) => inr {| fi_Name := basename path; fi_IsDir := true |}
    | Some _ => inr {| fi_Name := basename path; fi_IsDir := false |}
    | None => inl (notExist "stat" path)
    end;
  Open fs path :=
    match lookupNode fs path with
    | Some (NFile content) => inr content
    | Some _ => inl (ErrText "not a file")
    | None => inl (notExist "open" path)
    end;
  Join _ elems := joinPath elems
|}.

(** A host with one table of files and decoders that accept the empty
    object only and report a syntax error on anything else. *)
Definition hostWith (files : list (string * string)) : Host := {|
  ioutil_ReadFile path :=
    match find (fun p => String.eqb (fst p) path) files with
    | Some p => inr (snd p)
    | None => inl (notExist "open" path)
    end;
  json_Unmarshal_configs buf :=
    if String.eqb buf "{}" then inr ∅
    else inl (SyntaxError "invalid character" 1%Z);
  json_Decode_config buf :=
    if String.eqb buf "{}" then inr zeroEnvironmentConfig
    else inl (SyntaxError "invalid character" 1%Z)
|}.

Definition stateOf (fs : MemFS) (bootstrap : bool) (path : string) : State MemFS :=
  {| StFilesystem := fs; Commit := None; BootstrapMode := bootstrap;
     EnvironmentConfigsPath := path |}.

Definition dir (name : string) : FileInfo := {| fi_Name := name; fi_IsDir := true |}.

(** Releases 9 and 10 of [app1], listed by name as a directory listing
    sorted by file name has them, and a deployment of release 10. *)
Definition fsReleases : MemFS :=
  [ ("applications/app1/releases", NDir [dir "10"; dir "9"; dir "latest"]);
    ("applications/app1/releases/9", NDir []);
    ("applications/app1/releases/10", NDir []);
    ("environments/env1/applications/app1/version",
       NLink "../../../../applications/app1/releases/10");
    ("environments/env1/applications/app2/version",
       NLink "../../../../applications/app2/releases/3") ].

(** A back end whose commits are named after their message. *)
#[global] Instance MemFS_Backend : Backend MemFS := {|
  NewEmptyTreeBuildFS := [];
  NewTreeBuildFS _ := [];
  Insert _ := inr "tree";
  CreateCommitFromIds _ _ _ message _ _ := inr ("commit:" +:+ message);
  UpdateDatadogMetrics _ := None;
  afterTransform _ s := inr (StFilesystem s)
|}.

Definition okTransformer (msg app env : string) : Transformer MemFS :=
  fun _ s =>
    inr (msg,
         Some {| ChangedApps := [{| App := app; Env := env |}];
                 DeletedRootApps := []; Commits := None |},
         StFilesystem s).


Definition alice : auth.User :=
  {| auth.Email := "alice@example.com"; auth.Name := "alice"; auth.DexAuthCtx := None |}.

Definition liveCtx : auth.Context :=
  {| auth.ctx_Err := None; auth.ctx_user := Some alice |}.

Definition cancelledCtx : auth.Context :=
  {| auth.ctx_Err := Some SCanceled; auth.ctx_user := Some alice |}.

Definition elem (c : auth.Context) (ts : list (Transformer MemFS)) (ch : nat)
  : element MemFS :=
  {| ctx := c; transformers := ts; result := ch |}.

Definition testConfig : RepositoryConfig :=
  {| cfg_URL := "ssh://git/manifests"; cfg_CommitterEmail := "kuberpult@example.com";
     cfg_CommitterName := "kuberpult"; cfg_Branch := "master";
     cfg_BootstrapMode := false; cfg_EnvironmentConfigsPath := "";
     cfg_ArgoInsecure := false; cfg_ArgoWebhookUrl := "http://argo";
     cfg_WebURL := "https://git/manifests" |}.

Definition testRepo : repository :=
  {| config := testConfig; backOffProvider := [500; 750; 1125; 1687; 2531; 3796]%Z |}.

Definition worldWith (q : list (element MemFS)) (pushes : list PushOutcome)
    (fetches : list FetchOutcome) (argo : list HttpOutcome) : World MemFS :=
  {| head := None; odb := []; queue := q; remote_pushes := pushes;
     remote_fetches := fetches; argo_responses := argo; trace := [] |}.

Definition pushed : PushOutcome :=
  {| push_err := None; push_updates := [("refs/heads/master", "")] |}.

Definition pushRejected : PushOutcome :=
  {| push_err := None; push_updates := [("refs/heads/master", "protected branch hook declined")] |}.


Definition pushBroken : PushOutcome :=
  {| push_err := Some (ErrGit ErrorCodeGeneric); push_updates := [] |}.










End Examples.

(** ** Vocabulary of the properties *)

(** The channels on which [ApplyTransformers] was called, in order. *)
Fixpoint applied (t : list event) : list nat :=
  match t with
  | [] => []
  | EvApply ch :: t' => ch :: applied t'
  | _ :: t' => applied t'
  end.

(** The values sent on the result channel [ch], in order. *)
Fixpoint sentOn (ch : nat) (t : list event) : list (option error) :=
  match t with
  | [] => []
  | EvResult ch' err :: t' => if (ch' =? ch)%nat then err :: sentOn ch t' else sentOn ch t'
  | _ :: t' => sentOn ch t'
  end.

Definition isFetch (ev : event) : bool :=
  match ev with EvFetchAndReset => true | _ => false end.

Definition isNotify (ev : event) : bool :=
  match ev with EvNotify => true | _ => false end.

Definition isPost (ev : event) : bool :=
  match ev with EvWebhookPost _ _ => true | _ => false end.

Definition isPushAttempt (ev : event) : bool :=
  match ev with EvPush _ _ => true | _ => false end.

Definition countEvents (p : event -> bool) (t : list event) : nat :=
  length (filter (fun ev => p ev = true) t).

(** Every webhook POST and every notifier signal of [t] comes after a
    push attempt that returned without error and left the success flag
    set, with no apply and no fetch-and-reset in between.  [armed] tells
    whether such a push has just been seen. *)
Fixpoint afterSuccessfulPush (armed : bool) (t : list event) : bool :=
  match t with
  | [] => true
  | EvPush err success :: t' => afterSuccessfulPush (negb (notNil err) && success) t'
  | EvApply _ :: t' => afterSuccessfulPush false t'
  | EvFetchAndReset :: t' => afterSuccessfulPush false t'
  | EvWebhookPost _ _ :: t' => armed && afterSuccessfulPush armed t'
  | EvNotify :: t' => armed && afterSuccessfulPush armed t'
  | _ :: t' => afterSuccessfulPush armed t'
  end.

(** The same with any push attempt, whatever its outcome. *)
Fixpoint afterPush (armed : bool) (t : list event) : bool :=
  match t with
  | [] => true
  | EvPush _ _ :: t' => afterPush true t'
  | EvApply _ :: t' => afterPush false t'
  | EvFetchAndReset :: t' => afterPush false t'
  | EvWebhookPost _ _ :: t' => armed && afterPush armed t'
  | EvNotify :: t' => armed && afterPush armed t'
  | _ :: t' => afterPush armed t'
  end.

(** Status codes the dispatcher retries on. *)
Definition is5xx (o : HttpOutcome) : bool :=
  match o with
  | HttpStatus code => (500 <=? code)%Z
  | HttpFailed _ => false
  end.

Definition is2xx (o : HttpOutcome) : bool :=
  match o with
  | HttpStatus code => (200 <=? code)%Z && (code <? 300)%Z
  | HttpFailed _ => false
  end.

(** The answer to the [k]-th POST from now on. *)
Definition responseAt {FS : Type} (w : World FS) (k : nat) : HttpOutcome :=
  nth k (argo_responses w) (HttpFailed "unreachable").

(** [n] failed attempts, numbered from [i]: each POST followed by its sleep. *)
Definition retried (data : PushPayload) (i n : nat) : list event :=
  flat_map (fun j => [EvWebhookPost j data; EvSleep (100 * Z.of_nat j)]) (seq i n).

(** A run of the transformers of one element, one after the other, each
    on the state its predecessors left: the outputs they return. *)
Inductive Ran {FS : Type} (c : auth.Context)
  : State FS -> list (Transformer FS) -> list (string * option TransformerResult * FS) -> Prop :=
| Ran_nil (st : State FS) : Ran c st [] []
| Ran_cons (st : State FS) (t : Transformer FS) (ts : list (Transformer FS))
    (msg : string) (sub : option TransformerResult) (fs' : FS)
    (outs : list (string * option TransformerResult * FS)) :
    t c st = inr (msg, sub, fs') ->
    Ran c {| StFilesystem := fs'; Commit := Commit st; BootstrapMode := BootstrapMode st;
             EnvironmentConfigsPath := EnvironmentConfigsPath st |} ts outs ->
    Ran c st (t :: ts) ((msg, sub, fs') :: outs).

Definition messageOf {FS : Type} (out : string * option TransformerResult * FS) : string :=
  fst (fst out).

(** An element whose context is not done. *)
Definition isLive {FS : Type} (f : element FS) : bool :=
  match auth.ctx_Err (ctx f) with Some _ => false | None => true end.

(** The answer a cancelled element gets when it is picked up. *)
Definition cancelEvent {FS : Type} (f : element FS) : list event :=
  match auth.ctx_Err (ctx f) with
  | Some cerr => [EvResult (result f) (Some (ErrSentinel cerr))]
  | None => []
  end.

(** An apply, a fetch-and-reset or a push attempt. *)
Definition isWork (ev : event) : bool :=
  match ev with
  | EvApply _ | EvFetchAndReset | EvPush _ _ => true
  | _ => false
  end.

(** Once a webhook POST or a notifier signal has been seen ([seen]), no
    apply, fetch-and-reset or push attempt follows. *)
Fixpoint noWorkAfterNotice (seen : bool) (t : list event) : bool :=
  match t with
  | [] => true
  | EvWebhookPost _ _ :: t' => noWorkAfterNotice true t'
  | EvNotify :: t' => noWorkAfterNotice true t'
  | EvApply _ :: t' => negb seen && noWorkAfterNotice seen t'
  | EvFetchAndReset :: t' => negb seen && noWorkAfterNotice seen t'
  | EvPush _ _ :: t' => negb seen && noWorkAfterNotice seen t'
  | _ :: t' => noWorkAfterNotice seen t'
  end.

(** A stretch of the trace without webhook POST and without notifier signal. *)
Definition quiet (t : list event) : Prop :=
  countEvents isPost t = 0 /\ countEvents isNotify t = 0.

(** ** More of [repository.go]: locks, the deployment queue, garbage collection *)



(** [billy.Filesystem.Remove], the one write operation of the interface
    that the state view itself calls.  It returns the error and the
    filesystem it leaves. *)
Class FilesystemRemove (FS : Type) : Type := {
  Remove : FS -> string -> option error * FS
}.

(** What the lock accessors use of the Go library: [os.IsNotExist],
    [time.Time] with its zero value, [time.Parse] at the layout
    [time.RFC3339] and [strings.TrimSpace].  None of them is part of the
    sources at hand; they are parameters, and nothing is assumed about
    them. *)
Class GoLib : Type := {
  os_IsNotExist : error -> bool;
  Time : Type;
  zeroTime : Time;
  time_Parse_RFC3339 : string -> error + Time;
  strings_TrimSpace : string -> string
}.

Record Actor : Type := {
  Name : string;
  Email : string
}.

Record Lock `{GoLib} : Type := {
  Message : string;
  CreatedBy : Actor;
  CreatedAt : Time
}.

Section Locks.
Context {FS : Type} `{Filesystem FS} `{FilesystemRemove FS} `{GoLib}.

(** [func readFile(fs billy.Filesystem, path string) ([]byte, error)] *)
Definition readFile (fs : FS) (path : string) : error + string := Open fs path.

(** The block [readLock] repeats for each of its files: a missing file
    leaves the field at its zero value, any other error is returned. *)
Definition readOptional (fs : FS) (path : string) : error + option string :=
  match readFile fs path with
  | inl err => if negb (os_IsNotExist err) then inl err else inr None
  | inr cnt => inr (Some cnt)
  end.

(** [func readLock(fs billy.Filesystem, lockDir string) ( *Lock, error)] *)
Definition readLock (fs : FS) (lockDir : string) : error + Lock :=
  match readOptional fs (Join fs [lockDir; "message"]) with
  | inl err => inl err
  | inr message =>
  match readOptional fs (Join fs [lockDir; "created_by_email"]) with
  | inl err => inl err
  | inr email =>
  match readOptional fs (Join fs [lockDir; "created_by_name"]) with
  | inl err => inl err
  | inr name =>
  match readOptional fs (Join fs [lockDir; "created_at"]) with
  | inl err => inl err
  | inr None =>
      inr {| Message := default "" message;
             CreatedBy := {| Name := default "" name; Email := default "" email |};
             CreatedAt := zeroTime |}
  | inr (Some cnt) =>
      match time_Parse_RFC3339 (strings_TrimSpace cnt) with
      | inl err => inl err
      | inr createdAt =>
          inr {| Message := default "" message;
                 CreatedBy := {| Name := default "" name; Email := default "" email |};
                 CreatedAt := createdAt |}
      end
  end end end end.

(** The loop of [GetEnvironmentLocks] and of
    [GetEnvironmentApplicationLocks] over the entries of the locks
    directory; the two differ in [base] and in the text of [foundFile]. *)
Fixpoint readLocks (fs : FS) (base : string) (foundFile : error) (entries : list FileInfo)
    (result : gmap string Lock) : error + gmap string Lock :=
  match entries with
  | [] => inr result
  | e :: entries' =>
      if negb (fi_IsDir e) then inl foundFile
      else
        match readLock fs (Join fs [base; fi_Name e]) with
        | inl err => inl err
        | inr lock => readLocks fs base foundFile entries' (<[fi_Name e := lock]> result)
        end
  end.

(** [func (s *State) GetEnvironmentLocks(environment string) (map[string]Lock, error)] *)
Definition GetEnvironmentLocks (s : State FS) (environment : string)
  : error + gmap string Lock :=
  let fs := StFilesystem s in
  let base := Join fs ["environments"; environment; "locks"] in
  match ReadDir fs base with
  | inl err => inl err
  | inr entries =>
      readLocks fs base
        (ErrText "error getting environment locks: found file in the locks directory. run migration script to generate correct metadata")
        entries ∅
  end.

(** [func (s *State) GetEnvironmentApplicationLocks(environment, application string) (map[string]Lock, error)] *)
Definition GetEnvironmentApplicationLocks (s : State FS) (environment application : string)
  : error + gmap string Lock :=
  let fs := StFilesystem s in
  let base := Join fs ["environments"; environment; "applications"; application; "locks"] in
  match ReadDir fs base with
  | inl err => inl err
  | inr entries =>
      readLocks fs base
        (ErrText "error getting application locks: found file in the locks directory. run migration script to generate correct metadata")
        entries ∅
  end.




End Locks.

(** [type StorageBackend int] with its three constants. *)
Inductive StorageBackend : Type :=
| DefaultBackend     (* = 0 *)
| GitBackend         (* = iota, 1 *)
| SqliteBackend.     (* = iota, 2 *)

Definition StorageBackend_eqb (a b : StorageBackend) : bool :=
  match a, b with
  | DefaultBackend, DefaultBackend | GitBackend, GitBackend | SqliteBackend, SqliteBackend => true
  | _, _ => false
  end.

(** The fields of [RepositoryConfig] that garbage collection reads. *)
Record GcConfig : Type := {
  GcFrequency : Z;                       (* uint *)
  cfg_StorageBackend : StorageBackend
}.

(** The defaults [New] fills in, for the fields kept in [RepositoryConfig]
    and [GcConfig]. *)
Definition New_config (cfg : RepositoryConfig) : RepositoryConfig :=
  {| cfg_URL := cfg_URL cfg;
     cfg_CommitterEmail :=
       if auth.is_empty (cfg_CommitterEmail cfg) then "kuberpult@example.com"
       else cfg_CommitterEmail cfg;
     cfg_CommitterName :=
       if auth.is_empty (cfg_CommitterName cfg) then "kuberpult" else cfg_CommitterName cfg;
     cfg_Branch := if auth.is_empty (cfg_Branch cfg) then "master" else cfg_Branch cfg;
     cfg_BootstrapMode := cfg_BootstrapMode cfg;
     cfg_EnvironmentConfigsPath := cfg_EnvironmentConfigsPath cfg;
     cfg_ArgoInsecure := cfg_ArgoInsecure cfg;
     cfg_ArgoWebhookUrl := cfg_ArgoWebhookUrl cfg;
     cfg_WebURL := cfg_WebURL cfg |}.

Definition New_gc (cfg : GcConfig) : GcConfig :=
  {| GcFrequency := GcFrequency cfg;
     cfg_StorageBackend :=
       if StorageBackend_eqb (cfg_StorageBackend cfg) DefaultBackend then SqliteBackend
       else cfg_StorageBackend cfg |}.

(** [func (r *repository) maybeGc(ctx context.Context)]: the new value of
    [r.writesDone] and whether [git repack] was started.  A failing
    repack ends the process ([log.Fatal]); the statistics the function
    logs are left out. *)
Definition maybeGc (cfg : GcConfig) (writesDone : Z) : Z * bool :=
  if StorageBackend_eqb (cfg_StorageBackend cfg) SqliteBackend
     || (GcFrequency cfg =? 0)%Z || (writesDone <? GcFrequency cfg)%Z
  then (writesDone, false)
  else (0%Z, true).

(** The deferred function of [Apply]:
    [r.writesDone = r.writesDone + uint(len(transformers)); r.maybeGc(ctx)],
    with [uint] at 64 bits. *)
Definition Apply_deferred (cfg : GcConfig) (writesDone : Z) (transformers : nat) : Z * bool :=
  maybeGc cfg ((writesDone + Z.of_nat transformers) mod 2 ^ 64)%Z.

(** A sequence of calls of [Apply], one after the other, each with the
    number of its transformers: the counter at the end and, for each
    call, whether it started a repack. *)
Fixpoint applyCalls (cfg : GcConfig) (writesDone : Z) (calls : list nat) : Z * list bool :=
  match calls with
  | [] => (writesDone, [])
  | n :: calls' =>
      let '(wd, ran) := Apply_deferred cfg writesDone n in
      let '(wd', rans) := applyCalls cfg wd calls' in
      (wd', ran :: rans)
  end.

Record ObjectCount : Type := {
  Count : Z;
  Size : Z;
  InPack : Z;
  Packs : Z;
  SizePack : Z;
  Garbage : Z;
  SizeGarbage : Z
}.

Definition zeroObjectCount : ObjectCount :=
  {| Count := 0; Size := 0; InPack := 0; Packs := 0; SizePack := 0;
     Garbage := 0; SizeGarbage := 0 |}.

(** The [switch token] of [countObjects]. *)
Definition recordStat (stats : ObjectCount) (token : string) (value : Z) : ObjectCount :=
  if String.eqb token "count:" then
    {| Count := value; Size := Size stats; InPack := InPack stats; Packs := Packs stats;
       SizePack := SizePack stats; Garbage := Garbage stats; SizeGarbage := SizeGarbage stats |}
  else if String.eqb token "size:" then
    {| Count := Count stats; Size := value; InPack := InPack stats; Packs := Packs stats;
       SizePack := SizePack stats; Garbage := Garbage stats; SizeGarbage := SizeGarbage stats |}
  else if String.eqb token "in-packs:" then
    {| Count := Count stats; Size := Size stats; InPack := value; Packs := Packs stats;
       SizePack := SizePack stats; Garbage := Garbage stats; SizeGarbage := SizeGarbage stats |}
  else if String.eqb token "packs:" then
    {| Count := Count stats; Size := Size stats; InPack := InPack stats; Packs := value;
       SizePack := SizePack stats; Garbage := Garbage stats; SizeGarbage := SizeGarbage stats |}
  else if String.eqb token "size-pack:" then
    {| Count := Count stats; Size := Size stats; InPack := InPack stats; Packs := Packs stats;
       SizePack := value; Garbage := Garbage stats; SizeGarbage := SizeGarbage stats |}
  else if String.eqb token "garbage:" then
    {| Count := Count stats; Size := Size stats; InPack := InPack stats; Packs := Packs stats;
       SizePack := SizePack stats; Garbage := value; SizeGarbage := SizeGarbage stats |}
  else if String.eqb token "size-garbage" then
    {| Count := Count stats; Size := Size stats; InPack := InPack stats; Packs := Packs stats;
       SizePack := SizePack stats; Garbage := Garbage stats; SizeGarbage := value |}
  else stats.

(** The scanner loop of [countObjects].  Each line is given by what
    [fmt.Sscan(scanner.Text(), &token, &value)] makes of it: an error,
    or the token and the value. *)
Fixpoint scanStats (lines : list (error + string * Z)) (stats : ObjectCount)
  : ObjectCount * option error :=
  match lines with
  | [] => (stats, None)
  | inl err :: _ => (stats, Some err)
  | inr (token, value) :: lines' => scanStats lines' (recordStat stats token value)
  end.

(** [func (r *repository) countObjects(ctx context.Context) (ObjectCount, error)];
    [out] is what [git count-objects --verbose] printed, line by line,
    or the error of running it. *)
Definition countObjects (out : error + list (error + string * Z)) : ObjectCount * option error :=
  let stats := zeroObjectCount in
  match out with
  | inl err => (stats, Some err)
  | inr lines => scanStats lines stats
  end.

(** The tokens of the output of [git count-objects --verbose], as the
    comment in [countObjects] lists them. *)
Definition gitCountTokens : list string :=
  ["count:"; "size:"; "in-pack:"; "packs:"; "size-pack:"; "prune-packable:";
   "garbage:"; "size-garbage:"].

(** ** More of [pkg/auth]: the author on the wire *)

Module base64.

(** [base64.StdEncoding]: the standard alphabet with padding.  The
    package is part of the Go library, not of the sources at hand; this
    is its encoder and its decoder as the library documents them (the
    decoder skips carriage returns and line feeds and is not strict about
    the unused bits of the last character). *)
Definition encodeStd : string :=
  "ABCDEFGHIJKLMNOPQRSTUVWXYZabcdefghijklmnopqrstuvwxyz0123456789+/".

Definition padChar : ascii := "="%char.

(** The character of a 6-bit value. *)
Definition encodeChar (sextet : ascii) : ascii :=
  nth (nat_of_ascii sextet) (list_ascii_of_string encodeStd) padChar.

Fixpoint indexOf (c : ascii) (l : list ascii) (i : nat) : option nat :=
  match l with
  | [] => None
  | x :: l' => if Ascii.eqb x c then Some i else indexOf c l' (S i)
  end.

(** [decodeMap]: the 6-bit value of a character of the alphabet. *)
Definition decodeChar (c : ascii) : option ascii :=
  option_map ascii_of_nat (indexOf c (list_ascii_of_string encodeStd) 0).

(** Three bytes as four 6-bit values, most significant bits first. *)
Definition sextets3 (a b c : ascii) : ascii * ascii * ascii * ascii :=
  let '(Ascii a0 a1 a2 a3 a4 a5 a6 a7) := a in
  let '(Ascii b0 b1 b2 b3 b4 b5 b6 b7) := b in
  let '(Ascii c0 c1 c2 c3 c4 c5 c6 c7) := c in
  (Ascii a2 a3 a4 a5 a6 a7 false false,
   Ascii b4 b5 b6 b7 a0 a1 false false,
   Ascii c6 c7 b0 b1 b2 b3 false false,
   Ascii c0 c1 c2 c3 c4 c5 false false).

(** Four 6-bit values as three bytes. *)
Definition bytes3 (s1 s2 s3 s4 : ascii) : ascii * ascii * ascii :=
  let '(Ascii p0 p1 p2 p3 p4 p5 _ _) := s1 in
  let '(Ascii q0 q1 q2 q3 q4 q5 _ _) := s2 in
  let '(Ascii r0 r1 r2 r3 r4 r5 _ _) := s3 in
  let '(Ascii t0 t1 t2 t3 t4 t5 _ _) := s4 in
  (Ascii q4 q5 p0 p1 p2 p3 p4 p5,
   Ascii r2 r3 r4 r5 q0 q1 q2 q3,
   Ascii t0 t1 t2 t3 t4 t5 r0 r1).

Fixpoint encode (src : list ascii) : list ascii :=
  match src with
  | [] => []
  | [a] =>
      let '(s1, s2, _, _) := sextets3 a zero zero in
      [encodeChar s1; encodeChar s2; padChar; padChar]
  | [a; b] =>
      let '(s1, s2, s3, _) := sextets3 a b zero in
      [encodeChar s1; encodeChar s2; encodeChar s3; padChar]
  | a :: b :: c :: src' =>
      let '(s1, s2, s3, s4) := sextets3 a b c in
      encodeChar s1 :: encodeChar s2 :: encodeChar s3 :: encodeChar s4 :: encode src'
  end.

Definition corrupt : error := ErrText "illegal base64 data".

(** The quanta of the decoder, on an input without line breaks.  The
    result holds the bytes decoded before a failure, as [DecodeString]
    returns them. *)
Fixpoint decodeQuanta (src : list ascii) : list ascii * option error :=
  match src with
  | [] => ([], None)
  | c1 :: c2 :: c3 :: c4 :: src' =>
      match decodeChar c1, decodeChar c2 with
      | Some s1, Some s2 =>
          if Ascii.eqb c3 padChar then
            if Ascii.eqb c4 padChar then
              let '(a, _, _) := bytes3 s1 s2 zero zero in
              match src' with
              | [] => ([a], None)
              | _ => ([a], Some corrupt)   (* trailing garbage *)
              end
            else ([], Some corrupt)        (* incorrect padding *)
          else
            match decodeChar c3 with
            | None => ([], Some corrupt)
            | Some s3 =>
                if Ascii.eqb c4 padChar then
                  let '(a, b, _) := bytes3 s1 s2 s3 zero in
                  match src' with
                  | [] => ([a; b], None)
                  | _ => ([a; b], Some corrupt)
                  end
                else
                  match decodeChar c4 with
                  | None => ([], Some corrupt)
                  | Some s4 =>
                      let '(a, b, c) := bytes3 s1 s2 s3 s4 in
                      let '(out, err) := decodeQuanta src' in
                      (a :: b :: c :: out, err)
                  end
            end
      | _, _ => ([], Some corrupt)
      end
  | _ => ([], Some corrupt)               (* an incomplete quantum *)
  end.

Definition isLineBreak (c : ascii) : bool :=
  Ascii.eqb c (ascii_of_nat 10) || Ascii.eqb c (ascii_of_nat 13).

Definition EncodeToString (src : string) : string :=
  string_of_list_ascii (encode (list_ascii_of_string src)).

Definition DecodeString (s : string) : string * option error :=
  let '(out, err) :=
    decodeQuanta (List.filter (fun c => negb (isLineBreak c)) (list_ascii_of_string s)) in
  (string_of_list_ascii out, err).

End base64.

Module authwire.

Definition HeaderUserName : string := "author-name".
Definition HeaderUserEmail : string := "author-email".
Definition HeaderUserRole : string := "author-role".

(** [func Encode64(s string) string] *)
Definition Encode64 (s : string) : string := base64.EncodeToString s.

(** [func Decode64(s string) (string, error)] *)
Definition Decode64 (s : string) : string * option error := base64.DecodeString s.

(** [httperrors.AuthError(ctx, err)]; the package is not part of the
    sources at hand, the constructor keeps the error it is given. *)
Inductive AuthFailure : Type :=
| AuthError (inner : error).

(** [metadata.MD]: the values of each key, in the order they were added. *)
Definition MD : Type := gmap string (list string).

(** [md.Get(k)] *)
Definition md_Get (md : MD) (k : string) : list string := default [] (md !! k).

(** One key-value pair of [metadata.AppendToOutgoingContext]. *)
Definition md_Append (md : MD) (k v : string) : MD := <[k := md_Get md k ++ [v]]> md.

(** [func WriteUserToGrpcContext(ctx context.Context, u User) context.Context],
    on the metadata of the context. *)
Definition WriteUserToGrpcContext (md : MD) (u : auth.User) : MD :=
  md_Append (md_Append md HeaderUserEmail (Encode64 (auth.Email u)))
            HeaderUserName (Encode64 (auth.Name u)).

(** [func WriteUserRoleToGrpcContext(ctx context.Context, userRole string) context.Context] *)
Definition WriteUserRoleToGrpcContext (md : MD) (userRole : string) : MD :=
  md_Append md HeaderUserRole (Encode64 userRole).

(** [func ReadUserFromGrpcContext(ctx context.Context, dexEnabled bool) ( *User, error)];
    the argument is what [metadata.FromIncomingContext] finds, [None]
    when the context carries no metadata. *)
Definition ReadUserFromGrpcContext (incoming : option MD) (dexEnabled : bool)
  : AuthFailure + auth.User :=
  match incoming with
  | None =>
      inl (AuthError (ErrText "could not retrieve metadata context with git author in grpc context"))
  | Some md =>
      match md_Get md HeaderUserEmail with
      | [] => inl (AuthError (ErrText "did not find author-email in grpc context"))
      | originalEmail :: _ =>
          match Decode64 originalEmail with
          | (_, Some _) =>
              inl (AuthError (ErrText ("extract: non-base64 in author-email in grpc context "
                                         +:+ originalEmail)))
          | (userMail, None) =>
              match md_Get md HeaderUserName with
              | [] =>
                  inl (AuthError (ErrText
                    ("extract: username undefined but mail defined in grpc context " +:+ userMail)))
              | originalName :: _ =>
                  match Decode64 originalName with
                  | (userName, Some _) =>
                      inl (AuthError (ErrText
                        ("extract: non-base64 in author-username in grpc context " +:+ userName)))
                  | (userName, None) =>
                      if auth.is_empty userMail || auth.is_empty userName then
                        inl (AuthError (ErrText "email and name in grpc context cannot both be empty"))
                      else if dexEnabled then
                        (* RBAC Role of the user. only mandatory if DEX is enabled. *)
                        match md_Get md HeaderUserRole with
                        | [] => inl (AuthError (ErrText "extract: role undefined but dex is enabled"))
                        | role :: _ =>
                            match Decode64 role with
                            | (userRole, Some _) =>
                                inl (AuthError (ErrText
                                  ("extract: non-base64 in author-role in grpc context " +:+ userRole)))
                            | (userRole, None) =>
                                inr {| auth.Email := userMail; auth.Name := userName;
                                       auth.DexAuthCtx := Some {| auth.Role := userRole |} |}
                            end
                        end
                      else
                        inr {| auth.Email := userMail; auth.Name := userName;
                               auth.DexAuthCtx := None |}
                  end
              end
          end
      end
  end.

(** [http.Header], by the first value of each key: the code reads it
    with [Get] and writes it with [Set] only. *)
Definition Header : Type := gmap string string.

(** [r.Header.Get(k)] *)
Definition Header_Get (h : Header) (k : string) : string := default "" (h !! k).

(** [r.Header.Set(k, v)] *)
Definition Header_Set (h : Header) (k v : string) : Header := <[k := v]> h.

(** [func ReadUserFromHttpHeader(ctx context.Context, r *http.Request) ( *User, error)] *)
Definition ReadUserFromHttpHeader (h : Header) : AuthFailure + auth.User :=
  match Decode64 (Header_Get h HeaderUserEmail) with
  | (_, Some _) => inl (AuthError (ErrText "ExtractUserHttp: invalid data in email"))
  | (headerEmail, None) =>
      match Decode64 (Header_Get h HeaderUserName) with
      | (_, Some _) => inl (AuthError (ErrText "ExtractUserHttp: invalid data in name"))
      | (headerName, None) =>
          match Decode64 (Header_Get h HeaderUserRole) with
          | (_, Some _) => inl (AuthError (ErrText "ExtractUserHttp: invalid data in role"))
          | (headerRole, None) =>
              if negb (auth.is_empty headerName) && negb (auth.is_empty headerEmail) then
                inr {| auth.Email := headerEmail; auth.Name := headerName;
                       auth.DexAuthCtx := Some {| auth.Role := headerRole |} |}
              else inl (AuthError (ErrText "ExtractUserHttp: did not find data in headers"))
          end
      end
  end.

(** [func WriteUserToHttpHeader(r *http.Request, user User)] *)
Definition WriteUserToHttpHeader (h : Header) (user : auth.User) : Header :=
  Header_Set (Header_Set h HeaderUserName (Encode64 (auth.Name user)))
             HeaderUserEmail (Encode64 (auth.Email user)).

(** [func WriteUserRoleToHttpHeader(r *http.Request, role string)] *)
Definition WriteUserRoleToHttpHeader (h : Header) (role : string) : Header :=
  Header_Set h HeaderUserRole (Encode64 role).

End authwire.

(** ** The author middleware of the frontend-service ([cmd/server.go]) *)

Module frontend.






End frontend.

(** ** [pkg/setup]: the health server *)

Module setup.

Inductive Health : Type :=
| HealthStarting     (* = iota, the zero value *)
| HealthReady
| HealthFailed.

Definition Health_eqb (a b : Health) : bool :=
  match a, b with
  | HealthStarting, HealthStarting | HealthReady, HealthReady | HealthFailed, HealthFailed => true
  | _, _ => false
  end.

(** [type report struct]; the time is the reading of [h.now()] when the
    report was made. *)
Record report : Type := {
  health : Health;
  Message : string;
  Time : Z
}.

(** The zero value, which [h.parts[name]] yields for a missing key. *)
Definition zeroReport : report :=
  {| health := HealthStarting; Message := ""; Time := 0 |}.

(** [type HealthServer struct], by its map [parts], which is [nil] until
    the first report. *)
Record HealthServer : Type := {
  parts : option (gmap string report)
}.

(** [type HealthReporter struct]: its server is the [HealthServer] the
    operations below are applied to. *)
Record HealthReporter : Type := {
  name : string
}.

(** [func (r *HealthReporter) ReportHealth(health Health, message string)];
    [now] is what [r.server.now()] reads. *)
Definition ReportHealth (r : option HealthReporter) (h : Health) (message : string)
    (now : Z) (server : HealthServer) : HealthServer :=
  match r with
  | None => server
  | Some r =>
      let parts0 := match parts server with None => ∅ | Some m => m end in
      {| parts := Some (<[name r := {| health := h; Message := message; Time := now |}]> parts0) |}
  end.

(** [func (r *HealthReporter) ReportReady(message string)] *)
Definition ReportReady (r : option HealthReporter) (message : string) (now : Z)
    (server : HealthServer) : HealthServer :=
  ReportHealth r HealthReady message now server.

(** [func (h *HealthServer) Reporter(name string) *HealthReporter] *)
Definition Reporter (nm : string) (now : Z) (server : HealthServer)
  : HealthReporter * HealthServer :=
  let r := {| name := nm |} in
  (r, ReportHealth (Some r) HealthStarting "starting" now server).

(** [func (h *HealthServer) IsReady(name string) bool] *)
Definition IsReady (server : HealthServer) (nm : string) : bool :=
  match parts server with
  | None => false
  | Some m => Health_eqb (health (default zeroReport (m !! nm))) HealthReady
  end.

(** [func (h *HealthServer) reports() map[string]report]: a copy of the map. *)
Definition reports (server : HealthServer) : gmap string report :=
  match parts server with None => ∅ | Some m => m end.

(** The status code [ServeHTTP] answers with: the loop over the reports
    clears [success] at every part that is not ready. *)
Definition ServeHTTP_status (server : HealthServer) : Z :=
  let success :=
    fold_left (fun success kv =>
                 if negb (Health_eqb (health (snd kv)) HealthReady) then false else success)
              (map_to_list (reports server)) true in
  if success then 200%Z else 500%Z.

End setup.

(** ** Concrete instances, continued *)

Module Examples2.
Import Examples.

#[global] Instance MemFS_Remove : FilesystemRemove MemFS := {|
  Remove fs path :=
    match lookupNode fs path with
    | Some _ => (None, List.filter (fun p => negb (String.eqb (fst p) path)) fs)
    | None => (Some (notExist "remove" path), fs)
    end
|}.

(** A library whose clock counts seconds and whose time stamps are
    decimal numbers. *)
#[global] Instance MemLib : GoLib := {|
  os_IsNotExist err :=
    match err with
    | ErrSentinel SNotExist | ErrWrap _ (ErrSentinel SNotExist) => true
    | _ => false
    end;
  Time := Z;
  zeroTime := 0%Z;
  time_Parse_RFC3339 s :=
    match strconv.ParseUint s with
    | (v, None) => inr v
    | (_, Some e) => inl (ErrNum e s)
    end;
  strings_TrimSpace s := s
|}.


Definition mdOfBob : authwire.MD :=
  authwire.WriteUserToGrpcContext ∅
    {| auth.Email := "bob@example.com"; auth.Name := "bob"; auth.DexAuthCtx := None |}.



(** The output the comment in [countObjects] shows, with one piece of
    garbage added. *)
Definition gitOutput : list (error + string * Z) :=
  [ inr ("count:", 0%Z); inr ("size:", 0%Z); inr ("in-pack:", 635%Z); inr ("packs:", 1%Z);
    inr ("size-pack:", 2845%Z); inr ("prune-packable:", 0%Z); inr ("garbage:", 0%Z);
    inr ("size-garbage:", 12%Z) ].

(** Two environments, one of them without [config.json]. *)
Definition fsEnvs : MemFS :=
  [ ("environments", NDir [dir "dev"; dir "prod"]);
    ("environments/dev/config.json", NFile "{}") ].

(** Release 9 of [app1]; its link [version] points to a plain file
    named [7] beside the link, its link [queued_version] to a directory
    named [latest]. *)
Definition fsStray : MemFS :=
  [ ("applications/app1/releases", NDir [dir "9"]);
    ("applications/app1/releases/9", NDir []);
    ("environments/env1/applications/app1/7", NFile "not a release");
    ("environments/env1/applications/app1/latest", NDir []);
    ("environments/env1/applications/app1/version", NLink "7");
    ("environments/env1/applications/app1/queued_version", NLink "latest") ].


End Examples2.

(** ** Vocabulary of the further properties *)

(** The value of the last line of [lines] that carries [token], [acc]
    when there is none. *)
Fixpoint lastValue (token : string) (lines : list (error + string * Z)) (acc : Z) : Z :=
  match lines with
  | [] => acc
  | inr (t, v) :: lines' => lastValue token lines' (if String.eqb t token then v else acc)
  | inl _ :: lines' => lastValue token lines' acc
  end.

(** A line that [fmt.Sscan] reads and whose token is one of those that
    [git count-objects --verbose] prints. *)
Definition isGitCountLine (l : error + string * Z) : Prop :=
  match l with
  | inr (token, _) => In token gitCountTokens
  | inl _ => False
  end.

(** What a lock accessor makes of the entries of a locks directory
    [base]: a map exactly when every entry is a directory whose lock can
    be read, and then the map holds, under the name of each entry, the
    lock read from it. *)
Definition locksRead {FS : Type} `{Filesystem FS} `{GoLib} (fs : FS) (base : string)
    (entries : list FileInfo) (result : error + gmap string Lock) : Prop :=
  match result with
  | inr m =>
      Forall (fun e => fi_IsDir e = true) entries
      /\ dom m = list_to_set (map fi_Name entries)
      /\ (forall nm l, m !! nm = Some l -> readLock fs (Join fs [base; nm]) = inr l)
  | inl _ =>
      Exists (fun e => fi_IsDir e = false
                       \/ exists err, readLock fs (Join fs [base; fi_Name e]) = inl err)
             entries
  end.

(** A cause of a failure [err] of [readLock] on [lockDir]: one of its
    files cannot be opened for another reason than its absence, or the
    time stamp does not parse. *)
Definition lockFailure {FS : Type} `{Filesystem FS} `{GoLib} (fs : FS) (lockDir : string)
    (err : error) : Prop :=
  (exists f, In f ["message"; "created_by_email"; "created_by_name"; "created_at"]
             /\ Open fs (Join fs [lockDir; f]) = inl err /\ os_IsNotExist err = false)
  \/ (exists cnt, Open fs (Join fs [lockDir; "created_at"]) = inr cnt
                  /\ time_Parse_RFC3339 (strings_TrimSpace cnt) = inl err).

(** The value [readLock] gives the field it reads from the file [f]:
    the content of the file, or the zero value [zero] when the file is
    absent. *)
Definition lockField {FS : Type} `{Filesystem FS} `{GoLib} {A : Type} (fs : FS)
    (lockDir f : string) (parse : string -> option A) (zero value : A) : Prop :=
  match Open fs (Join fs [lockDir; f]) with
  | inr cnt => parse cnt = Some value
  | inl err => os_IsNotExist err = true /\ value = zero
  end.

(** What [GetEnvironmentConfigs] makes of the entries [envs] of the
    directory [environments] when it reads the repository tree: a map
    whose keys are the names of the entries, each with the decoded
    [config.json] of its directory, or with the zero configuration when
    that file is absent; or the error that names the first file that
    could not be read or decoded. *)
Definition environmentsRead {FS : Type} `{Filesystem FS} `{Host} (fs : FS)
    (envs : list FileInfo) (result : error + gmap string EnvironmentConfig) : Prop :=
  let file := fun nm => Join fs ["environments"; nm; "config.json"] in
  match result with
  | inr m =>
      dom m = list_to_set (map fi_Name envs)
      /\ forall nm c, m !! nm = Some c ->
           decodeJsonFile fs (file nm) = inr c
           \/ (c = zeroEnvironmentConfig
               /\ exists derr, decodeJsonFile fs (file nm) = inl derr
                               /\ errors_Is derr SNotExist = true)
  | inl err =>
      errors_Is err invalidJson = true
      /\ exists env derr,
           In env envs
           /\ decodeJsonFile fs (file (fi_Name env)) = inl derr
           /\ errors_Is derr SNotExist = false
           /\ err = ErrWrap (file (fi_Name env) +:+ " : ") (ErrSentinel invalidJson)
  end.



(** * Properties *)

(** ** Authors *)

Lemma is_empty_spec (s : string) : auth.is_empty s = true <-> s = "".
Proof. destruct s; simpl; split; congruence. Qed.

(** C10: [GetUserOrDefault] returns a user that carries a name and an
    e-mail only (no role); a missing user or one without e-mail gives the
    default's name and e-mail; otherwise the e-mail is the user's and the
    name is the user's name, or the e-mail when the name is empty; so the
    result's name and e-mail are non-empty whenever the default's are. *)
Theorem GetUserOrDefault_spec (u : option auth.User) (defaultUser : auth.User) :
  let res := auth.GetUserOrDefault u defaultUser in
  auth.DexAuthCtx res = None /\
  (u = None -> auth.Name res = auth.Name defaultUser /\ auth.Email res = auth.Email defaultUser) /\
  (forall u', u = Some u' -> auth.Email u' = "" ->
     auth.Name res = auth.Name defaultUser /\ auth.Email res = auth.Email defaultUser) /\
  (forall u', u = Some u' -> auth.Email u' <> "" ->
     auth.Email res = auth.Email u' /\
     (auth.Name u' <> "" -> auth.Name res = auth.Name u') /\
     (auth.Name u' = "" -> auth.Name res = auth.Email u')) /\
  (auth.Name defaultUser <> "" -> auth.Email defaultUser <> "" ->
     auth.Name res <> "" /\ auth.Email res <> "").
Proof.
  unfold auth.GetUserOrDefault.
  destruct u as [u'|]; simpl.
  - destruct (auth.is_empty (auth.Email u')) eqn:He; simpl.
    + apply is_empty_spec in He.
      repeat split; try congruence; intros; simplify_eq; congruence.
    + assert (Hne : auth.Email u' <> "").
      { intros Heq. apply is_empty_spec in Heq. congruence. }
      destruct (auth.is_empty (auth.Name u')) eqn:Hn; simpl.
      * apply is_empty_spec in Hn.
        repeat split; try congruence; intros; simplify_eq; try congruence; auto.
      * assert (Hnn : auth.Name u' <> "").
        { intros Heq. apply is_empty_spec in Heq. congruence. }
        repeat split; try congruence; intros; simplify_eq; try congruence; auto.
  - repeat split; try congruence; auto.
Qed.

Lemma GetUserOrDefault_witness :
  let bob := {| auth.Email := "bob@example.com"; auth.Name := "";
                auth.DexAuthCtx := Some {| auth.Role := "admin" |} |} in
  auth.Email bob <> "" /\
  auth.Name (auth.GetUserOrDefault (Some bob) Examples.alice) = "bob@example.com" /\
  auth.Name (auth.GetUserOrDefault None Examples.alice) <> "".
Proof.
  intros bob.
  assert (Hbob : auth.Email bob <> "") by discriminate.
  destruct (GetUserOrDefault_spec (Some bob) Examples.alice) as (_ & _ & _ & Hd & _).
  destruct (Hd bob eq_refl Hbob) as (_ & _ & Hn).
  destruct (GetUserOrDefault_spec None Examples.alice) as (_ & _ & _ & _ & Hne).
  split; [exact Hbob|].
  split; [exact (Hn eq_refl)|].
  apply Hne; discriminate.
Defined.

(** ** The state view *)

Section StateViewFacts.
Context {FS : Type} `{Filesystem FS} `{Host}.

Lemma fold_appendNumeric_app (ns : list string) (acc : list Z) :
  fold_left appendNumeric ns acc = acc ++ fold_left appendNumeric ns [].
Proof.
  revert acc. induction ns as [|n ns IH]; intros acc; simpl.
  - by rewrite app_nil_r.
  - rewrite (IH (appendNumeric acc n)), (IH (appendNumeric [] n)).
    unfold appendNumeric. destruct (strconv.ParseUint n) as [i [e|]]; simpl.
    + reflexivity.
    + by rewrite <- app_assoc.
Qed.

(** The sibling accessor sorts what it has parsed. *)
Lemma GetApplicationReleases_sorted (s : State FS) (application : string) (l : list Z) :
  GetApplicationReleases s application = inr l -> StronglySorted Z.le l.
Proof.
  unfold GetApplicationReleases, sort_Slice.
  destruct (names _ _); intros Heq; simplify_eq.
  apply StronglySorted_merge_sort; apply _.
Qed.

(** [Releases] returns the numeric names in the order [ReadDir] lists
    them; the other names are skipped. *)
Lemma Releases_numeric_entries (s : State FS) (application : string)
    (entries : list FileInfo) :
  ReadDir (StFilesystem s)
    (Join (StFilesystem s) ["applications"; application; "releases"]) = inr entries ->
  Releases s application
  = inr (omap (fun e => match strconv.ParseUint (fi_Name e) with
                        | (i, None) => Some i
                        | (_, Some _) => None
                        end) entries).
Proof.
  intros Hdir. unfold Releases. rewrite Hdir. f_equal. clear Hdir.
  set (numeric := fun e : FileInfo => _).
  assert (Hloop : forall acc,
            fold_left (fun result e => appendNumeric result (fi_Name e)) entries acc
            = acc ++ omap numeric entries).
  { induction entries as [|e entries IH]; intros acc; simpl.
    - by rewrite app_nil_r.
    - rewrite IH. unfold appendNumeric, numeric.
      destruct (strconv.ParseUint (fi_Name e)) as [i [err|]]; simpl.
      + reflexivity.
      + by rewrite <- app_assoc. }
  apply Hloop.
Qed.

(** Outside bootstrap mode, whatever goes wrong with a [config.json]
    that is present is reported as the invalid-JSON error. *)
Lemma readEnvironmentConfigs_invalidJson (fs : FS) (envs : list FileInfo) :
  forall (result : gmap string EnvironmentConfig) (err : error),
    readEnvironmentConfigs fs envs result = inl err ->
    errors_Is err invalidJson = true.
Proof.
  induction envs as [|env envs IH]; intros result err; simpl; [discriminate|].
  destruct (decodeJsonFile fs _) as [derr|config]; [|apply IH].
  destruct (errors_Is derr SNotExist); [apply IH|].
  intros Heq; simplify_eq. reflexivity.
Qed.

(** [readSymlink] case by case. *)
Lemma readSymlink_spec (s : State FS) (environment application symlinkName : string) :
  let fs := StFilesystem s in
  let version :=
    Join fs ["environments"; environment; "applications"; application; symlinkName] in
  let target lnk :=
    Join fs ["environments"; environment; "applications"; application; lnk] in
  (forall err, Readlink fs version = inl err -> errors_Is err SNotExist = true ->
     readSymlink s environment application symlinkName = (None, None)) /\
  (forall lnk err, Readlink fs version = inr lnk -> Stat fs (target lnk) = inl err ->
     exists e, readSymlink s environment application symlinkName = (None, Some e)) /\
  (forall lnk stat v, Readlink fs version = inr lnk -> Stat fs (target lnk) = inr stat ->
     strconv.ParseUint (fi_Name stat) = (v, None) ->
     readSymlink s environment application symlinkName = (Some v, None)) /\
  (forall v, readSymlink s environment application symlinkName = (Some v, None) ->
     exists lnk stat, Readlink fs version = inr lnk /\ Stat fs (target lnk) = inr stat /\
                      strconv.ParseUint (fi_Name stat) = (v, None)) /\
  (forall err, Readlink fs version = inl err -> errors_Is err SNotExist = false ->
     exists e, readSymlink s environment application symlinkName = (None, Some e)) /\
  (forall lnk stat v e, Readlink fs version = inr lnk -> Stat fs (target lnk) = inr stat ->
     strconv.ParseUint (fi_Name stat) = (v, Some e) ->
     readSymlink s environment application symlinkName
     = (Some v, Some (ErrNum e (fi_Name stat)))).
Proof.
  intros fs version target. unfold readSymlink. fold fs. fold version.
  repeat split.
  - intros err Hl Hne. by rewrite Hl, Hne.
  - intros lnk err Hl Hs. rewrite Hl. fold (target lnk). rewrite Hs. eauto.
  - intros lnk stat v Hl Hs Hp. rewrite Hl. fold (target lnk). by rewrite Hs, Hp.
  - intros v. destruct (Readlink fs version) as [err|lnk] eqn:Hl.
    + destruct (errors_Is err SNotExist); intros; simplify_eq.
    + fold (target lnk). destruct (Stat fs (target lnk)) as [err|stat] eqn:Hs.
      * intros; simplify_eq.
      * destruct (strconv.ParseUint (fi_Name stat)) as [res [e|]] eqn:Hp; simpl;
          intros; simplify_eq.
        exists lnk, stat. auto.
  - intros err Hl Hne. rewrite Hl, Hne. eauto.
  - intros lnk stat v e Hl Hs Hp. rewrite Hl. fold (target lnk). by rewrite Hs, Hp.
Qed.

End StateViewFacts.

(** C2, evaluated: with releases 9 and 10 listed by file name, [Releases]
    hands back [10; 9], which is not ascending, while
    [GetApplicationReleases] on the same tree returns [9; 10]. *)
Theorem Releases_keeps_ReadDir_order :
  let s := Examples.stateOf Examples.fsReleases false "" in
  Releases s "app1" = inr [10; 9]%Z /\
  ~ Sorted Z.le [10; 9]%Z /\
  GetApplicationReleases s "app1" = inr [9; 10]%Z.
Proof.
  split; [reflexivity|]. split; [|reflexivity].
  intros Hs. inversion Hs as [|? ? _ Hhd]; subst.
  inversion Hhd as [|? ? Hle]; subst. revert Hle. by compute.
Qed.

(** C3, as stated, fails: in bootstrap mode a malformed file gives an
    error for which [errors.Is(err, invalidJson)] does not hold. *)
Lemma bootstrap_malformed_is_not_invalidJson :
  let host := Examples.hostWith [("envs.json", "{")] in
  let s := Examples.stateOf [] true "envs.json" in
  ~ (exists err, @GetEnvironmentConfigs _ _ host s = inl err /\
                 errors_Is err invalidJson = true).
Proof.
  intros host s [err [Heq His]].
  vm_compute in Heq. simplify_eq.
Qed.

(** C3, amended: in bootstrap mode an absent file gives the empty map,
    and a file that is present and malformed makes the call fail with the
    decoder's own error, which is not the invalid-JSON error. *)
Theorem GetEnvironmentConfigs_bootstrap {FS : Type} `{Filesystem FS} `{Host} (s : State FS) :
  BootstrapMode s = true ->
  (forall err, ioutil_ReadFile (EnvironmentConfigsPath s) = inl err ->
     errors_Is err SNotExist = true -> GetEnvironmentConfigs s = inr ∅) /\
  (forall buf j, ioutil_ReadFile (EnvironmentConfigsPath s) = inr buf ->
     json_Unmarshal_configs buf = inl j ->
     GetEnvironmentConfigs s = inl (ErrJson j) /\
     errors_Is (ErrJson j) invalidJson = false).
Proof.
  intros Hb. unfold GetEnvironmentConfigs. rewrite Hb. split.
  - intros err Hr Hne. by rewrite Hr, Hne.
  - intros buf j Hr Hj. by rewrite Hr, Hj.
Qed.

Lemma GetEnvironmentConfigs_bootstrap_witness :
  let host := Examples.hostWith [("envs.json", "{")] in
  @GetEnvironmentConfigs _ _ host (Examples.stateOf [] true "missing.json") = inr ∅ /\
  @GetEnvironmentConfigs _ _ host (Examples.stateOf [] true "envs.json")
    = inl (ErrJson (SyntaxError "invalid character" 1%Z)).
Proof.
  intros host. split.
  - refine (proj1 (@GetEnvironmentConfigs_bootstrap _ _ host
                     (Examples.stateOf [] true "missing.json") eq_refl) _ eq_refl eq_refl).
  - refine (proj1 (proj2 (@GetEnvironmentConfigs_bootstrap _ _ host
                     (Examples.stateOf [] true "envs.json") eq_refl) "{" _ eq_refl eq_refl)).
Defined.

(** C9, as stated, fails: the claim has a present link return the
    number of an existing release directory.  Here the link [version] of
    [app1] points to a plain file named [7] beside it: the call returns 7
    without error, although the target is not a directory and release 7
    is not among the releases of [app1]; and the link [queued_version]
    points to the directory [latest]: the call returns a value together
    with the parse error. *)
Lemma version_link_need_not_name_a_release :
  let s := Examples.stateOf Examples2.fsStray false "" in
  let fs := StFilesystem s in
  GetEnvironmentApplicationVersion s "env1" "app1" = (Some 7%Z, None) /\
  Stat fs (Join fs ["environments"; "env1"; "applications"; "app1"; "7"])
  = inr {| fi_Name := "7"; fi_IsDir := false |} /\
  Releases s "app1" = inr [9%Z] /\
  GetQueuedVersion s "env1" "app1" = (Some 0%Z, Some (ErrNum ErrSyntax "latest")).
Proof. repeat split; reflexivity. Qed.

(** C9, amended: [GetEnvironmentApplicationVersion] and
    [GetQueuedVersion] return nil without error when the link is absent;
    they fail, returning no value, when the link cannot be read for
    another reason or its target cannot be stat'ed; when the target
    exists they return the number parsed from its base name, whatever
    kind of file the target is and wherever it lies, and a value
    returned without error is such a number; when the base name of the
    target is not a number they return a value together with the parse
    error. *)
Theorem version_links_spec {FS : Type} `{Filesystem FS} (s : State FS)
    (environment application : string) (read : option Z * option error) (link : string) :
  (link = "version" /\ read = GetEnvironmentApplicationVersion s environment application) \/
  (link = "queued_version" /\ read = GetQueuedVersion s environment application) ->
  let fs := StFilesystem s in
  let version := Join fs ["environments"; environment; "applications"; application; link] in
  let target lnk := Join fs ["environments"; environment; "applications"; application; lnk] in
  (forall err, Readlink fs version = inl err -> errors_Is err SNotExist = true ->
     read = (None, None)) /\
  (forall lnk err, Readlink fs version = inr lnk -> Stat fs (target lnk) = inl err ->
     exists e, read = (None, Some e)) /\
  (forall lnk stat v, Readlink fs version = inr lnk -> Stat fs (target lnk) = inr stat ->
     strconv.ParseUint (fi_Name stat) = (v, None) -> read = (Some v, None)) /\
  (forall v, read = (Some v, None) ->
     exists lnk stat, Readlink fs version = inr lnk /\ Stat fs (target lnk) = inr stat /\
                      strconv.ParseUint (fi_Name stat) = (v, None)) /\
  (forall err, Readlink fs version = inl err -> errors_Is err SNotExist = false ->
     exists e, read = (None, Some e)) /\
  (forall lnk stat v e, Readlink fs version = inr lnk -> Stat fs (target lnk) = inr stat ->
     strconv.ParseUint (fi_Name stat) = (v, Some e) ->
     read = (Some v, Some (ErrNum e (fi_Name stat)))).
Proof.
  intros [[-> ->]|[-> ->]];
    unfold GetEnvironmentApplicationVersion, GetQueuedVersion, queueFileName;
    apply readSymlink_spec.
Qed.

Lemma version_links_witness :
  let s := Examples.stateOf Examples.fsReleases false "" in
  GetEnvironmentApplicationVersion s "env1" "app1" = (Some 10%Z, None) /\
  GetQueuedVersion s "env1" "app1" = (None, None) /\
  exists e, GetEnvironmentApplicationVersion s "env1" "app2" = (None, Some e).
Proof.
  intros s. split; [|split].
  - refine (proj1 (proj2 (proj2 (version_links_spec s "env1" "app1" _ "version"
             (or_introl (conj eq_refl eq_refl)))))
             "../../../../applications/app1/releases/10"
             {| fi_Name := "10"; fi_IsDir := true |} 10%Z eq_refl eq_refl eq_refl).
  - refine (proj1 (version_links_spec s "env1" "app1" _ "queued_version"
             (or_intror (conj eq_refl eq_refl))) _ eq_refl eq_refl).
  - refine (proj1 (proj2 (version_links_spec s "env1" "app2" _ "version"
             (or_introl (conj eq_refl eq_refl))))
             "../../../../applications/app2/releases/3" _ eq_refl eq_refl).
Defined.

(** ** The webhook dispatcher *)

Section WebhookFacts.
Context {FS : Type} `{Backend FS}.

#[local] Arguments retried _ _ _ : simpl never.

Lemma trace_emit (ev : event) (w : World FS) : trace (emit ev w) = trace w ++ [ev].
Proof. reflexivity. Qed.

Lemma responseAt_posted (data : PushPayload) (i k : nat) (w : World FS) :
  responseAt (emit (EvWebhookPost i data) (popArgo w)) k = responseAt w (S k).
Proof.
  unfold responseAt; simpl.
  destruct (argo_responses w); [by destruct k|reflexivity].
Qed.

Lemma responseAt_emit (ev : event) (k : nat) (w : World FS) :
  responseAt (emit ev w) k = responseAt w k.
Proof. reflexivity. Qed.

Lemma head_response (w : World FS) :
  hd (HttpFailed "unreachable") (argo_responses w) = responseAt w 0.
Proof. unfold responseAt. by destruct (argo_responses w). Qed.

Lemma doWebhookPostRequest_5xx (data : PushPayload) (cfg : RepositoryConfig) (i : nat)
    (w : World FS) :
  is5xx (responseAt w 0) = true ->
  exists err, doWebhookPostRequest data cfg i w
              = (Some err, true, emit (EvWebhookPost i data) (popArgo w)).
Proof.
  unfold doWebhookPostRequest. rewrite head_response.
  destruct (responseAt w 0) as [msg|code]; unfold is5xx; [discriminate 1|].
  intros ->. eauto.
Qed.

Lemma doWebhookPostRequest_final (data : PushPayload) (cfg : RepositoryConfig) (i : nat)
    (w : World FS) :
  is5xx (responseAt w 0) = false ->
  exists err, doWebhookPostRequest data cfg i w
              = (err, false, emit (EvWebhookPost i data) (popArgo w)).
Proof.
  unfold doWebhookPostRequest. rewrite head_response.
  destruct (responseAt w 0) as [msg|code]; unfold is5xx; [eauto|].
  intros ->. destruct (contains [200%Z] code); eauto.
Qed.

(** Only status 200 makes the request itself return without error. *)
Lemma doWebhookPostRequest_nil_iff_200 (data : PushPayload) (cfg : RepositoryConfig)
    (i : nat) (w : World FS) :
  (doWebhookPostRequest data cfg i w).1.1 = None <-> responseAt w 0 = HttpStatus 200.
Proof.
  unfold doWebhookPostRequest. rewrite head_response.
  destruct (responseAt w 0) as [msg|code]; [split; discriminate 1|].
  destruct (500 <=? code)%Z eqn:H5.
  - split; [discriminate 1|]. intros Heq; simplify_eq.
  - unfold contains. destruct (200 =? code)%Z eqn:H2.
    + apply Z.eqb_eq in H2. subst. split; reflexivity.
    + split; [discriminate 1|].
      intros Heq; simplify_eq.
Qed.

Lemma retried_S (data : PushPayload) (i n : nat) :
  retried data i (S n)
  = [EvWebhookPost i data; EvSleep (100 * Z.of_nat i)] ++ retried data (S i) n.
Proof. reflexivity. Qed.

Lemma webhookLoop_stops (data : PushPayload) (cfg : RepositoryConfig) (k : nat) :
  forall (n i : nat) (w : World FS),
    k < n ->
    (forall j, j < k -> is5xx (responseAt w j) = true) ->
    is5xx (responseAt w k) = false ->
    exists w', webhookLoop data cfg (seq i n) w = (true, w') /\
               trace w' = trace w ++ retried data i k ++ [EvWebhookPost (i + k) data].
Proof.
  induction k as [|k IH]; intros n i w Hlt Hpre Hk.
  - destruct n as [|n]; [lia|]. simpl.
    destruct (doWebhookPostRequest_final data cfg i w Hk) as [err ->].
    rewrite andb_false_r. eexists. split; [reflexivity|].
    rewrite Nat.add_0_r. reflexivity.
  - destruct n as [|n]; [lia|]. simpl seq. simpl webhookLoop.
    destruct (doWebhookPostRequest_5xx data cfg i w (Hpre 0 ltac:(lia))) as [err ->].
    simpl.
    destruct (IH n (S i)
                (emit (EvSleep (100 * Z.of_nat i)) (emit (EvWebhookPost i data) (popArgo w))))
      as [w' [Hrun Htr]].
    + lia.
    + intros j Hj. rewrite responseAt_emit, responseAt_posted. apply Hpre. lia.
    + by rewrite responseAt_emit, responseAt_posted.
    + exists w'. split; [exact Hrun|].
      rewrite Htr. unfold retried. simpl. rewrite <- !app_assoc. simpl.
      by replace (i + S k) with (S (i + k)) by lia.
Qed.

Lemma webhookLoop_exhausts (data : PushPayload) (cfg : RepositoryConfig) (n : nat) :
  forall (i : nat) (w : World FS),
    (forall j, j < n -> is5xx (responseAt w j) = true) ->
    exists w', webhookLoop data cfg (seq i n) w = (false, w') /\
               trace w' = trace w ++ retried data i n.
Proof.
  induction n as [|n IH]; intros i w Hall.
  - exists w. split; [reflexivity|]. unfold retried. simpl. by rewrite app_nil_r.
  - simpl seq. simpl webhookLoop.
    destruct (doWebhookPostRequest_5xx data cfg i w (Hall 0 ltac:(lia))) as [err ->].
    simpl.
    destruct (IH (S i)
                (emit (EvSleep (100 * Z.of_nat i)) (emit (EvWebhookPost i data) (popArgo w))))
      as [w' [Hrun Htr]].
    + intros j Hj. rewrite responseAt_emit, responseAt_posted. apply Hall. lia.
    + exists w'. split; [exact Hrun|].
      rewrite Htr. unfold retried. simpl. rewrite <- !app_assoc. reflexivity.
Qed.

End WebhookFacts.

(** C5: a dispatch posts at most three times; every response with a
    status of 500 or more is followed by a sleep of 100 times the attempt
    number in milliseconds and, up to the third attempt, by another
    attempt; the first response that is not such a status (any 2xx, any
    other status) ends the attempts at once, and the dispatch sets its
    flag [success]; after three such statuses the dispatch gives up
    with [success] unset.  This is the view of the dispatch loop:
    [doWebhookPostRequest] itself returns nil for status 200 only (see
    [doWebhookPostRequest_nil_iff_200]) and a non-retryable error for
    every other status below 500, which the loop does not tell from
    success. *)
Theorem webhook_retry_policy {FS : Type} `{Backend FS} (r : repository)
    (ch : TransformerResult) (ids : CommitIds) (w : World FS) :
  Commits ch = Some ids ->
  let data := argoPayload r ch ids in
  (forall k, k < maxArgoRequests ->
     (forall j, j < k -> is5xx (responseAt w j) = true) ->
     is5xx (responseAt w k) = false ->
     exists w', sendWebhookToArgoCd r (Some ch) w = (false, true, w') /\
                trace w' = trace w ++ retried data 1 k ++ [EvWebhookPost (S k) data]) /\
  ((forall j, j < maxArgoRequests -> is5xx (responseAt w j) = true) ->
     exists w', sendWebhookToArgoCd r (Some ch) w = (false, false, w') /\
                trace w' = trace w ++ retried data 1 maxArgoRequests) /\
  (forall o, is2xx o = true -> is5xx o = false).
Proof.
  intros Hids data. unfold sendWebhookToArgoCd. rewrite Hids. fold data.
  split; [|split].
  - intros k Hk Hpre Hstop.
    destruct (webhookLoop_stops data (config r) k maxArgoRequests 1 w Hk Hpre Hstop)
      as [w' [-> Htr]].
    exists w'. split; [reflexivity|]. exact Htr.
  - intros Hall.
    destruct (webhookLoop_exhausts data (config r) maxArgoRequests 1 w Hall)
      as [w' [-> Htr]].
    exists w'. split; [reflexivity|]. exact Htr.
  - intros [msg|code]; simpl; [discriminate|].
    intros H2. apply andb_true_iff in H2 as [_ H2].
    apply Z.ltb_lt in H2. apply Z.leb_gt. lia.
Qed.

Lemma webhook_retry_policy_witness :
  let ids := {| Previous := None; Current := "c1" |} in
  let ch := {| ChangedApps := [{| App := "app1"; Env := "env1" |}];
               DeletedRootApps := []; Commits := Some ids |} in
  let w := Examples.worldWith [] [] [] [HttpStatus 503; HttpStatus 204] in
  let data := argoPayload Examples.testRepo ch ids in
  exists w', sendWebhookToArgoCd Examples.testRepo (Some ch) w = (false, true, w') /\
             trace w' = trace w ++ retried data 1 1 ++ [EvWebhookPost 2 data].
Proof.
  intros ids ch w data.
  apply (proj1 (webhook_retry_policy Examples.testRepo ch ids w eq_refl) 1).
  - unfold maxArgoRequests. lia.
  - intros j Hj. destruct j; [reflexivity|lia].
  - reflexivity.
Defined.

(** ** Commits *)

Section CommitFacts.
Context {FS : Type} `{Backend FS}.

Lemma StateAt_Commit (r : repository) (w : World FS) (st : State FS) :
  StateAt r w = inr st -> Commit st = head w.
Proof.
  unfold StateAt. destruct (head w) as [oid|].
  - destruct (find _ (odb w)) as [commit|] eqn:Hf; intros Heq; simplify_eq.
    simpl. apply find_some in Hf as [_ Heqb].
    apply String.eqb_eq in Heqb. by rewrite Heqb.
  - intros Heq; simplify_eq. reflexivity.
Qed.

Lemma transformAll_Ran (c : auth.Context) (ts : list (Transformer FS)) :
  forall (st : State FS) (commitMsg : list string) (changes : list (option TransformerResult))
         (msgs : list string) (st' : State FS) (changes' : list (option TransformerResult)),
    transformAll c ts st commitMsg changes = inr (msgs, st', changes') ->
    exists outs, Ran c st ts outs /\
                 msgs = commitMsg ++ map messageOf outs /\
                 changes' = changes ++ map (fun out => snd (fst out)) outs /\
                 Commit st' = Commit st.
Proof.
  induction ts as [|t ts IH]; intros st commitMsg changes msgs st' changes' Hrun.
  - simpl in Hrun. simplify_eq. exists []. split; [constructor|].
    by rewrite !app_nil_r.
  - simpl in Hrun. destruct (t c st) as [err|[[msg sub] fs']] eqn:Ht; [discriminate|].
    apply IH in Hrun as [outs [Hran [-> [-> Hc]]]].
    exists ((msg, sub, fs') :: outs). split.
    + econstructor; eauto.
    + simpl. by rewrite <- !app_assoc.
Qed.

Lemma Ran_length (c : auth.Context) (st : State FS) (ts : list (Transformer FS))
    (outs : list (string * option TransformerResult * FS)) :
  Ran c st ts outs -> length outs = length ts.
Proof. induction 1; simpl; congruence. Qed.

End CommitFacts.

(** C8: a successful [ApplyTransformers] adds one commit and moves the
    branch head to it; its committer is the configured identity, its
    author the user read from the element's context, its message the
    messages of the transformers (run in order, each on the state left by
    the one before) joined by newlines, and its parent the previous
    branch head, none when there was no commit yet. *)
Theorem ApplyTransformers_commit {FS : Type} `{Backend FS} (r : repository)
    (c : auth.Context) (ts : list (Transformer FS)) (w w' : World FS)
    (res : TransformerResult) :
  ApplyTransformers r c ts w = (inr res, w') ->
  exists commit user st outs,
    odb w' = commit :: odb w /\
    head w' = Some (c_id commit) /\
    Commits res = Some {| Previous := head w; Current := c_id commit |} /\
    c_committer commit = {| sig_Name := cfg_CommitterName (config r);
                            sig_Email := cfg_CommitterEmail (config r) |} /\
    auth.ReadUserFromContext c = inr user /\
    c_author commit = {| sig_Name := auth.Name user; sig_Email := auth.Email user |} /\
    StateAt r w = inr st /\ Ran c st ts outs /\
    c_message commit = strings_Join (map messageOf outs) newline /\
    c_parent commit = head w.
Proof.
  unfold ApplyTransformers, ApplyTransformersInternal.
  destruct (StateAt r w) as [err|st0] eqn:Hst; [intros; simplify_eq|].
  destruct (transformAll c ts st0 [] []) as [err|[[msgs st] changes]] eqn:Hts;
    [intros; simplify_eq|].
  destruct (UpdateDatadogMetrics st); [intros; simplify_eq|].
  destruct (afterTransform (config r) st) as [err|fs']; [intros; simplify_eq|].
  destruct (Insert fs') as [err|treeId]; [intros; simplify_eq|].
  destruct (auth.ReadUserFromContext c) as [err|user] eqn:Hu; [intros; simplify_eq|].
  destruct (CreateCommitFromIds _ _ _ _ _ _) as [err|newCommitId]; intros Heq; simplify_eq.
  apply transformAll_Ran in Hts as [outs [Hran [-> [_ Hc]]]].
  rewrite (StateAt_Commit _ _ _ Hst) in Hc.
  eexists _, user, st0, outs. simpl. rewrite Hc.
  repeat split; eauto.
Qed.

Lemma ApplyTransformers_commit_witness :
  let ts := [Examples.okTransformer "release app1" "app1" "env1";
             Examples.okTransformer "deploy app1" "app1" "env1"] in
  let w := Examples.worldWith [] [] [] [] in
  exists commit,
    odb (ApplyTransformers Examples.testRepo Examples.liveCtx ts w).2 = [commit] /\
    c_parent commit = None /\
    c_message commit = "release app1" +:+ newline +:+ "deploy app1" /\
    sig_Name (c_author commit) = "alice" /\
    sig_Name (c_committer commit) = "kuberpult".
Proof.
  intros ts w.
  destruct (ApplyTransformers Examples.testRepo Examples.liveCtx ts w) as [res w'] eqn:Hrun.
  assert (Hres : exists res', res = inr res') by (vm_compute in Hrun; simplify_eq; eauto).
  destruct Hres as [res' ->].
  destruct (ApplyTransformers_commit _ _ _ _ _ _ Hrun)
    as (commit & user & st & outs & Hodb & _ & _ & Hcm & Hu & Hau & Hst & Hran & Hmsg & Hp).
  exists commit. simpl. rewrite Hodb. split; [reflexivity|].
  vm_compute in Hu. simplify_eq.
  vm_compute in Hst. simplify_eq.
  inversion Hran as [|? ? ? ? ? ? ? Ht1 Hran1]; subst.
  inversion Hran1 as [|? ? ? ? ? ? ? Ht2 Hran2]; subst.
  inversion Hran2; subst.
  vm_compute in Ht1. vm_compute in Ht2. simplify_eq.
  rewrite Hp, Hmsg, Hau, Hcm. repeat split; reflexivity.
Defined.

(** ** The apply pass *)

Section ApplyFacts.
Context {FS : Type} `{Backend FS}.

Lemma countEvents_app (p : event -> bool) (t1 t2 : list event) :
  countEvents p (t1 ++ t2) = countEvents p t1 + countEvents p t2.
Proof. unfold countEvents. by rewrite filter_app, length_app. Qed.

Lemma applied_app (t1 t2 : list event) : applied (t1 ++ t2) = applied t1 ++ applied t2.
Proof.
  induction t1 as [|ev t1 IH]; simpl; [reflexivity|].
  destruct ev; simpl; by rewrite ?IH.
Qed.

Lemma ApplyTransformers_trace (r : repository) (c : auth.Context)
    (ts : list (Transformer FS)) (w : World FS) :
  trace (ApplyTransformers r c ts w).2 = trace w.
Proof. unfold ApplyTransformers. repeat case_match; reflexivity. Qed.

Lemma FetchAndReset_trace (r : repository) (w : World FS) :
  trace (FetchAndReset r w).2 = trace w ++ [EvFetchAndReset].
Proof. unfold FetchAndReset. repeat case_match; reflexivity. Qed.

Lemma countEvents_cons (p : event -> bool) (ev : event) (t : list event) :
  countEvents p (ev :: t) = (if p ev then 1 else 0) + countEvents p t.
Proof.
  unfold countEvents. rewrite filter_cons.
  destruct (decide (p ev = true)) as [Hp|Hp].
  - rewrite Hp. reflexivity.
  - destruct (p ev); [congruence|reflexivity].
Qed.

Lemma countEvents_nil (p : event -> bool) : countEvents p [] = 0.
Proof. reflexivity. Qed.

(** The pass with recovery disabled applies every element once, in
    order, never fetches, never fails as a whole, and keeps a sublist. *)
Lemma applyLoop_plain (r : repository) (rest : list (element FS)) :
  forall (kept : list (element FS)) (ch : TransformerResult) (w : World FS),
  exists kept' ch' w' t,
    applyLoop r None kept rest ch w = (kept ++ kept', None, Some ch', w') /\
    trace w' = trace w ++ t /\
    applied t = map result rest /\
    countEvents isFetch t = 0 /\
    countEvents isNotify t = 0 /\
    countEvents isPost t = 0 /\
    countEvents isPushAttempt t = 0 /\
    sublist kept' rest.
Proof.
  induction rest as [|e rest IH]; intros kept ch w.
  - exists [], ch, w, []. simpl. rewrite !app_nil_r. repeat split; constructor.
  - cbn [applyLoop].
    pose proof (ApplyTransformers_trace r (ctx e) (transformers e)
                  (emit (EvApply (result e)) w)) as Htr.
    destruct (ApplyTransformers r (ctx e) (transformers e) (emit (EvApply (result e)) w))
      as [[applyErr|sub] w1]; cbn [snd trace emit] in Htr.
    + replace (if errors_Is applyErr invalidJson then None else None)
        with (@None (list (element FS) -> World FS -> @ApplyResult FS))
        by (by destruct (errors_Is _ _)).
      destruct (IH kept ch (send e (Some applyErr) w1))
        as (kept' & ch' & w' & t & Hrun & Ht & Happ & Hf & Hn & Hp & Hpa & Hsub).
      exists kept', ch', w', (EvApply (result e) :: EvResult (result e) (Some applyErr) :: t).
      rewrite Hrun, Ht. cbn [send emit trace]. rewrite Htr, <- !app_assoc.
      rewrite !countEvents_cons, Hf, Hn, Hp, Hpa. simpl. rewrite Happ.
      repeat split; try reflexivity. by constructor.
    + destruct (IH (kept ++ [e]) (Combine ch (Some sub)) w1)
        as (kept' & ch' & w' & t & Hrun & Ht & Happ & Hf & Hn & Hp & Hpa & Hsub).
      exists (e :: kept'), ch', w', (EvApply (result e) :: t).
      rewrite Hrun, Ht, Htr, <- !app_assoc.
      rewrite !countEvents_cons, Hf, Hn, Hp, Hpa. simpl. rewrite Happ.
      repeat split; try reflexivity. by constructor.
Qed.

(** Any pass fetches at most once and neither pushes nor notifies. *)
Lemma applyLoop_quiet (r : repository) (allow : bool) (rest : list (element FS)) :
  forall (kept : list (element FS)) (ch : TransformerResult) (w : World FS),
  exists t,
    trace (applyLoop r (recovery r allow) kept rest ch w).2 = trace w ++ t /\
    countEvents isFetch t <= 1 /\
    countEvents isNotify t = 0 /\
    countEvents isPost t = 0 /\
    countEvents isPushAttempt t = 0.
Proof.
  destruct allow.
  2:{ intros kept ch w.
      destruct (applyLoop_plain r rest kept ch w)
        as (kept' & ch' & w' & t & Hrun & Ht & _ & Hf & Hn & Hp & Hpa & _).
      exists t. unfold recovery. rewrite Hrun. cbn [snd]. rewrite Hf.
      repeat split; auto. }
  induction rest as [|e rest IH]; intros kept ch w.
  - exists []. simpl. rewrite app_nil_r. repeat split; auto.
  - cbn [applyLoop].
    pose proof (ApplyTransformers_trace r (ctx e) (transformers e)
                  (emit (EvApply (result e)) w)) as Htr.
    destruct (ApplyTransformers r (ctx e) (transformers e) (emit (EvApply (result e)) w))
      as [[applyErr|sub] w1]; cbn [snd trace emit] in Htr.
    + destruct (errors_Is applyErr invalidJson).
      * cbn [recovery].
        pose proof (FetchAndReset_trace r w1) as Hfr.
        destruct (FetchAndReset r w1) as [[err|] w2]; cbn [snd] in Hfr.
        -- exists [EvApply (result e); EvFetchAndReset]. cbn [snd].
           rewrite Hfr, Htr, <- !app_assoc. repeat split; auto.
        -- destruct (applyLoop_plain r (kept ++ e :: rest) [] emptyTransformerResult w2)
             as (kept' & ch' & w' & t & Hrun & Ht & _ & Hf & Hn & Hp & Hpa & _).
           exists (EvApply (result e) :: EvFetchAndReset :: t).
           rewrite Hrun. cbn [snd]. rewrite Ht, Hfr, Htr, <- !app_assoc.
           rewrite !countEvents_cons, Hf, Hn, Hp, Hpa. simpl. repeat split; auto.
      * destruct (IH kept ch (send e (Some applyErr) w1)) as (t & Ht & Hf & Hn & Hp & Hpa).
        exists (EvApply (result e) :: EvResult (result e) (Some applyErr) :: t).
        rewrite Ht. cbn [send emit trace]. rewrite Htr, <- !app_assoc.
        rewrite !countEvents_cons, Hn, Hp, Hpa. simpl. repeat split; auto.
    + destruct (IH (kept ++ [e]) (Combine ch (Some sub)) w1) as (t & Ht & Hf & Hn & Hp & Hpa).
      exists (EvApply (result e) :: t).
      rewrite Ht, Htr, <- !app_assoc.
      rewrite !countEvents_cons, Hn, Hp, Hpa. simpl. repeat split; auto.
Qed.

End ApplyFacts.



(** ** Cancelled elements *)

Section CancelFacts.
Context {FS : Type} `{Backend FS}.

(** Draining keeps the live elements in order and answers each
    cancelled one with its context error, once. *)
Lemma drainLoop_spec (q : list (element FS)) :
  forall (elements : list (element FS)) (w : World FS),
  exists w',
    drainLoop q elements w = (elements ++ filter (fun f => isLive f = true) q, w') /\
    trace w' = trace w ++ flat_map cancelEvent q /\
    remote_pushes w' = remote_pushes w /\
    remote_fetches w' = remote_fetches w /\
    argo_responses w' = argo_responses w.
Proof.
  induction q as [|f q IH]; intros elements w.
  - exists w. simpl. by rewrite !app_nil_r.
  - cbn [drainLoop flat_map]. rewrite filter_cons.
    destruct (auth.ctx_Err (ctx f)) as [cerr|] eqn:Hc.
    + assert (Hl : isLive f = false) by (unfold isLive; by rewrite Hc).
      assert (Hev : cancelEvent f = [EvResult (result f) (Some (ErrSentinel cerr))])
        by (unfold cancelEvent; by rewrite Hc).
      destruct (IH elements (send f (Some (ErrSentinel cerr)) w)) as (w' & -> & Ht & ? & ? & ?).
      exists w'. rewrite Ht, Hev. cbn [send emit trace]. rewrite <- app_assoc.
      rewrite decide_False by (rewrite Hl; discriminate). auto.
    + assert (Hl : isLive f = true) by (unfold isLive; by rewrite Hc).
      assert (Hev : cancelEvent f = []) by (unfold cancelEvent; by rewrite Hc).
      destruct (IH (elements ++ [f]) w) as (w' & -> & Ht & ? & ? & ?).
      exists w'. rewrite Ht, Hev, <- app_assoc. rewrite decide_True by exact Hl. auto.
Qed.

Lemma trace_deferred (elements : list (element FS)) (err : option error) :
  forall w : World FS,
    trace (deferred elements err w)
    = trace w ++ map (fun el => EvResult (result el) err) elements.
Proof.
  unfold deferred. induction elements as [|el elements IH]; intros w; simpl.
  - by rewrite app_nil_r.
  - rewrite IH. cbn [send emit trace]. by rewrite <- app_assoc.
Qed.

(** A first element whose context is done is answered twice: with its
    context error, and then by the deferred function with [panicError]. *)
Lemma ProcessQueueOnce_cancelled_first (r : repository) (e : element FS)
    (callback : PushUpdateFunc) (pushAction : PushActionCallbackFunc)
    (w : World FS) (cerr : sentinel) :
  auth.ctx_Err (ctx e) = Some cerr ->
  trace (ProcessQueueOnce r e callback pushAction w)
  = trace w ++ [EvResult (result e) (Some (ErrSentinel cerr));
                EvResult (result e) (Some panicError)].
Proof.
  intros Hc. unfold ProcessQueueOnce. rewrite Hc.
  rewrite trace_deferred. cbn [send emit trace map]. by rewrite <- app_assoc.
Qed.

End CancelFacts.

(** C7, evaluated: a cancelled element met while draining gets its
    context error once and is never applied, but a cancelled first
    element gets two sends on its result channel: the context error and
    then [panicError]. *)
Theorem cancelled_first_element_is_answered_twice :
  let first := Examples.elem Examples.cancelledCtx
                 [Examples.okTransformer "deploy" "app1" "env1"] 1 in
  let second := Examples.elem Examples.cancelledCtx
                  [Examples.okTransformer "deploy" "app2" "env1"] 2 in
  let third := Examples.elem Examples.liveCtx
                 [Examples.okTransformer "deploy" "app3" "env1"] 3 in
  let t1 := trace (ProcessQueueOnce Examples.testRepo first defaultPushUpdate
                     DefaultPushActionCallback
                     (Examples.worldWith [second; third] [Examples.pushed] [] [HttpStatus 200])) in
  let t3 := trace (ProcessQueueOnce Examples.testRepo third defaultPushUpdate
                     DefaultPushActionCallback
                     (Examples.worldWith [second] [Examples.pushed] [] [HttpStatus 200])) in
  t1 = [EvResult 1 (Some (ErrSentinel SCanceled)); EvResult 1 (Some panicError)] /\
  sentOn 1 t1 = [Some (ErrSentinel SCanceled); Some panicError] /\
  applied t1 = [] /\
  sentOn 2 t3 = [Some (ErrSentinel SCanceled)] /\
  applied t3 = [3].
Proof. repeat split; reflexivity. Qed.

(** ** Pushing *)

Section PushFacts.
Context {FS : Type} `{Backend FS}.


(** Every [Push] makes at least one attempt and at most one more than
    the policy has waits; it neither fetches nor notifies. *)
Lemma Push_trace (r : repository) (opts : PushOptions) (b : list Z) :
  forall (s : bool) (w : World FS),
  exists t,
    trace (backoff_Retry (pushOperation (DefaultPushActionCallback opts r))
             (fun d (s : bool * World FS) => (fst s, emit (EvSleep d) (snd s)))
             b (s, w)).2.2 = trace w ++ t /\
    1 <= countEvents isPushAttempt t <= S (length b) /\
    countEvents isNotify t = 0 /\
    countEvents isPost t = 0 /\
    countEvents isFetch t = 0 /\
    (forall a t2, afterPush a (t ++ t2) = afterPush true t2).
Proof.
  induction b as [|next b IH]; intros s w; cbn [backoff_Retry];
    unfold pushOperation at 1, DefaultPushActionCallback at 1; cbn [fst snd];
    set (o := hd unreachableRemote (remote_pushes w));
    set (s' := fold_left _ (push_updates o) s);
    destruct (push_err o) as [perr|] eqn:Ho.
  - exists [EvPush (Some perr) s'].
    destruct (isNonFastForward perr); cbn [snd trace emit popPush];
      rewrite !countEvents_cons, !countEvents_nil; simpl; repeat split; auto; lia.
  - exists [EvPush None s']. cbn [snd trace emit popPush].
    rewrite !countEvents_cons, !countEvents_nil; simpl; repeat split; auto; lia.
  - destruct (isNonFastForward perr).
    + exists [EvPush (Some perr) s']. cbn [snd trace emit popPush].
      rewrite !countEvents_cons, !countEvents_nil; simpl; repeat split; auto; lia.
    + destruct (IH s' (emit (EvSleep next) (emit (EvPush (Some perr) s') (popPush w))))
        as (t & Ht & Hn & Hno & Hp & Hf & Ha).
      exists (EvPush (Some perr) s' :: EvSleep next :: t).
      cbn [fst snd]. rewrite Ht. cbn [trace emit popPush]. rewrite <- !app_assoc.
      rewrite !countEvents_cons, Hno, Hp, Hf. simpl.
      repeat split; auto; lia.
  - exists [EvPush None s']. cbn [snd trace emit popPush].
    rewrite !countEvents_cons, !countEvents_nil; simpl; repeat split; auto; lia.
Qed.


End PushFacts.

(** ** Webhook and notifier in the writer loop *)

Section NotifyFacts.
Context {FS : Type} `{Backend FS}.

Lemma quiet_nil : quiet [].
Proof. split; reflexivity. Qed.

Lemma quiet_app (t1 t2 : list event) : quiet t1 -> quiet t2 -> quiet (t1 ++ t2).
Proof.
  intros [Hp1 Hn1] [Hp2 Hn2]. split; rewrite countEvents_app; lia.
Qed.

Lemma quiet_cons (ev : event) (t : list event) :
  isPost ev = false -> isNotify ev = false -> quiet t -> quiet (ev :: t).
Proof.
  intros Hp Hn [Hpt Hnt]. split; rewrite countEvents_cons, ?Hp, ?Hn; simpl; assumption.
Qed.

(** A quiet stretch passes the scan, in whatever state it starts. *)
Lemma afterPush_quiet (t : list event) :
  quiet t -> forall a t2, exists a', afterPush a (t ++ t2) = afterPush a' t2.
Proof.
  induction t as [|ev t IH]; intros [Hp Hn] a t2; [by exists a|].
  rewrite countEvents_cons in Hp, Hn.
  assert (Hq : quiet t) by (split; lia).
  destruct ev; simpl in Hp, Hn; try lia; simpl; eauto.
Qed.

Lemma afterPush_quiet_true (t : list event) (a : bool) : quiet t -> afterPush a t = true.
Proof.
  intros Hq. destruct (afterPush_quiet t Hq a []) as [a' Ha].
  rewrite app_nil_r in Ha. by rewrite Ha.
Qed.

Lemma noWork_quiet (t : list event) :
  quiet t -> forall t2, noWorkAfterNotice false (t ++ t2) = noWorkAfterNotice false t2.
Proof.
  induction t as [|ev t IH]; intros [Hp Hn] t2; [reflexivity|].
  rewrite countEvents_cons in Hp, Hn.
  assert (Hq : quiet t) by (split; lia).
  destruct ev; simpl in Hp, Hn; try lia; simpl; auto.
Qed.

Lemma noWork_workless (t : list event) :
  countEvents isWork t = 0 -> forall seen, noWorkAfterNotice seen t = true.
Proof.
  induction t as [|ev t IH]; intros Hw seen; [reflexivity|].
  rewrite countEvents_cons in Hw.
  destruct ev; simpl in Hw; try lia; simpl; auto.
Qed.

Lemma results_workless (elements : list (element FS)) (err : option error) :
  countEvents isWork (map (fun el => EvResult (result el) err) elements) = 0.
Proof.
  induction elements as [|el elements IH]; [reflexivity|].
  simpl. by rewrite countEvents_cons.
Qed.

Lemma results_quiet (elements : list (element FS)) (err : option error) :
  quiet (map (fun el => EvResult (result el) err) elements).
Proof.
  induction elements as [|el elements IH]; [apply quiet_nil|].
  simpl. by apply quiet_cons.
Qed.

Lemma results_afterPush (elements : list (element FS)) (err : option error) (a : bool) :
  afterPush a (map (fun el => EvResult (result el) err) elements) = true.
Proof. apply afterPush_quiet_true, results_quiet. Qed.

Lemma cancelEvents_quiet (q : list (element FS)) : quiet (flat_map cancelEvent q).
Proof.
  induction q as [|f q IH]; [apply quiet_nil|].
  simpl. apply quiet_app; [|exact IH].
  unfold cancelEvent. destruct (auth.ctx_Err (ctx f)); [|apply quiet_nil].
  apply quiet_cons; [reflexivity..|apply quiet_nil].
Qed.

(** The retry loop posts and sleeps, nothing else. *)
Lemma webhookLoop_trace (data : PushPayload) (cfg : RepositoryConfig) (tries : list nat) :
  forall w : World FS,
  exists t,
    trace (webhookLoop data cfg tries w).2 = trace w ++ t /\
    countEvents isNotify t = 0 /\
    countEvents isWork t = 0 /\
    (forall t2, afterPush true (t ++ t2) = afterPush true t2).
Proof.
  induction tries as [|i tries IH]; intros w.
  - exists []. simpl. by rewrite app_nil_r.
  - cbn [webhookLoop]. unfold doWebhookPostRequest.
    set (w1 := emit (EvWebhookPost i data) (popArgo w)).
    assert (Hstop : forall (b : bool) (w' : World FS), w' = w1 ->
              exists t, trace (b, w').2 = trace w ++ t /\ countEvents isNotify t = 0 /\
                        countEvents isWork t = 0 /\
                        (forall t2, afterPush true (t ++ t2) = afterPush true t2)).
    { intros b w' ->. exists [EvWebhookPost i data]. repeat split; auto. }
    assert (Hgo : exists t,
              trace (webhookLoop data cfg tries (emit (EvSleep (100 * Z.of_nat i)) w1)).2
              = trace w ++ t /\ countEvents isNotify t = 0 /\
              countEvents isWork t = 0 /\
              (forall t2, afterPush true (t ++ t2) = afterPush true t2)).
    { destruct (IH (emit (EvSleep (100 * Z.of_nat i)) w1)) as (t & Ht & Hn & Hw & Ha).
      exists (EvWebhookPost i data :: EvSleep (100 * Z.of_nat i) :: t).
      rewrite Ht. cbn [trace emit w1 popArgo]. rewrite <- !app_assoc.
      rewrite !countEvents_cons, Hn, Hw. repeat split; auto. }
    destruct (hd _ (argo_responses w)) as [msg|code]; cbn [notNil andb].
    + by apply Hstop.
    + destruct (500 <=? code)%Z; cbn [notNil andb]; [exact Hgo|].
      destruct (contains [200%Z] code); cbn [notNil andb]; by apply Hstop.
Qed.

(** What follows the push: POSTs and sleeps of the dispatcher, at most
    one notifier signal, and the results. *)
Lemma postPush_trace (r : repository) (ch : option TransformerResult)
    (elements : list (element FS)) (err : option error) (w : World FS) :
  exists t,
    trace (postPush r ch elements err w) = trace w ++ t /\
    afterPush true t = true /\
    countEvents isNotify t <= 1 /\
    countEvents isWork t = 0.
Proof.
  unfold postPush.
  pose proof (results_quiet elements err) as [_ Hrn].
  pose proof (results_workless elements err) as Hrw.
  assert (Hnotify : forall (w1 : World FS) t1, trace w1 = trace w ++ t1 ->
            countEvents isNotify t1 = 0 ->
            countEvents isWork t1 = 0 ->
            (forall t2, afterPush true (t1 ++ t2) = afterPush true t2) ->
            exists t, trace (deferred elements err (emit EvNotify w1)) = trace w ++ t /\
                      afterPush true t = true /\ countEvents isNotify t <= 1 /\
                      countEvents isWork t = 0).
  { intros w1 t1 Ht1 Hn1 Hw1 Ha1.
    exists (t1 ++ EvNotify :: map (fun el => EvResult (result el) err) elements).
    rewrite trace_deferred. cbn [trace emit]. rewrite Ht1, <- !app_assoc.
    split; [reflexivity|]. split; [|split].
    - rewrite Ha1. simpl. apply results_afterPush.
    - rewrite countEvents_app, countEvents_cons, Hn1, Hrn. simpl. lia.
    - rewrite countEvents_app, countEvents_cons, Hw1, Hrw. reflexivity. }
  assert (Hpanic : exists t, trace (deferred elements err (emit EvPanic w)) = trace w ++ t /\
                             afterPush true t = true /\ countEvents isNotify t <= 1 /\
                             countEvents isWork t = 0).
  { exists (EvPanic :: map (fun el => EvResult (result el) err) elements).
    rewrite trace_deferred. cbn [trace emit]. rewrite <- !app_assoc.
    split; [reflexivity|]. split; [|split].
    - simpl. apply results_afterPush.
    - rewrite countEvents_cons, Hrn. simpl. lia.
    - rewrite countEvents_cons, Hrw. reflexivity. }
  destruct (negb (auth.is_empty (cfg_ArgoWebhookUrl (config r)))).
  - unfold sendWebhookToArgoCd. destruct ch as [c|]; [|exact Hpanic].
    destruct (Commits c) as [ids|]; [|exact Hpanic].
    destruct (webhookLoop_trace (argoPayload r c ids) (config r) (seq 1 maxArgoRequests) w)
      as (t1 & Ht1 & Hn1 & Hw1 & Ha1).
    destruct (webhookLoop _ _ _ w) as [success w1]. by apply (Hnotify w1 t1).
  - apply (Hnotify w []); [by rewrite app_nil_r|reflexivity..].
Qed.

End NotifyFacts.

Section WriterNotifies.
Context {FS : Type} `{Backend FS}.

Lemma finish_quiet (t : list event) :
  quiet t ->
  afterPush false t = true /\ countEvents isNotify t <= 1 /\
  noWorkAfterNotice false t = true.
Proof.
  intros Hq. split; [by apply afterPush_quiet_true|]. split.
  - destruct Hq as [_ ->]. lia.
  - rewrite <- (app_nil_r t). by rewrite noWork_quiet.
Qed.

Lemma finish_pushed (before pushing post : list event) :
  quiet before ->
  (forall a t2, afterPush a (pushing ++ t2) = afterPush true t2) ->
  quiet pushing ->
  afterPush true post = true ->
  countEvents isNotify post <= 1 ->
  countEvents isWork post = 0 ->
  afterPush false (before ++ pushing ++ post) = true /\
  countEvents isNotify (before ++ pushing ++ post) <= 1 /\
  noWorkAfterNotice false (before ++ pushing ++ post) = true.
Proof.
  intros Hq Hpush Hqp Hpost Hone Hwork. split; [|split].
  - destruct (afterPush_quiet before Hq false (pushing ++ post)) as [a' ->].
    by rewrite Hpush.
  - destruct Hq as [_ Hqn]. destruct Hqp as [_ Hpn].
    rewrite !countEvents_app, Hqn, Hpn. lia.
  - rewrite !noWork_quiet by assumption. by apply noWork_workless.
Qed.

End WriterNotifies.





(** C1, as stated, fails: when the remote leaves the branch where it was
    (branch protection), the push has failed, every element is told so,
    and yet the webhook is posted and the subscribers are notified. *)
Lemma notified_after_rejected_push :
  let e := Examples.elem Examples.liveCtx [Examples.okTransformer "deploy" "app1" "env1"] 1 in
  let w := Examples.worldWith [] [Examples.pushRejected] [] [HttpStatus 200] in
  let t := trace (ProcessQueueOnce Examples.testRepo e defaultPushUpdate
                    DefaultPushActionCallback w) in
  ~ (afterSuccessfulPush false t = true) /\
  filter (fun ev => isPushAttempt ev = true) t = [EvPush None false] /\
  countEvents isPost t = 1 /\
  countEvents isNotify t = 1 /\
  exists err, sentOn 1 t = [Some err].
Proof.
  split; [|split; [|split; [|split]]].
  - vm_compute. discriminate.
  - reflexivity.
  - reflexivity.
  - reflexivity.
  - vm_compute. eauto.
Qed.

(** C1, amended: in every iteration of the writer loop a webhook POST
    and the notifier signal come only after a push attempt of that
    iteration has returned, with no apply pass and no fetch-and-reset
    between that attempt and them; once a POST or the signal has been
    made, no apply, fetch-and-reset or push attempt follows; and the
    notifier is signalled at most once.  An iteration that makes no push
    attempt, or whose last step before the results is an apply pass or a
    fetch-and-reset (it gave up during recovery), therefore posts
    nothing and notifies nobody.  The push attempt need not have
    succeeded. *)
Theorem webhook_and_notify_follow_a_push {FS : Type} `{Backend FS} (r : repository)
    (e : element FS) (callback : PushUpdateFunc) (w : World FS) :
  exists t,
    trace (ProcessQueueOnce r e callback DefaultPushActionCallback w) = trace w ++ t /\
    afterPush false t = true /\
    countEvents isNotify t <= 1 /\
    noWorkAfterNotice false t = true.
Proof.
  unfold ProcessQueueOnce.
  destruct (auth.ctx_Err (ctx e)) as [cerr|].
  { eexists. rewrite trace_deferred. cbn [send emit trace]. rewrite <- app_assoc.
    split; [reflexivity|]. apply finish_quiet.
    repeat (apply quiet_cons; [reflexivity..|]). apply quiet_nil. }
  unfold drainQueue.
  destruct (drainLoop_spec (queue w) []
              {| head := head w; odb := odb w; queue := [];
                 remote_pushes := remote_pushes w; remote_fetches := remote_fetches w;
                 argo_responses := argo_responses w; trace := trace w |})
    as (w1 & -> & Ht1 & _).
  cbn [trace] in Ht1.
  pose proof (cancelEvents_quiet (queue w)) as Hq1.
  set (t1 := flat_map cancelEvent (queue w)) in *.
  set (els0 := [e] ++ _).
  destruct (applyLoop_quiet r true els0 [] emptyTransformerResult w1)
    as (t2 & Ht2 & _ & Hn2 & Hp2 & _).
  unfold applyElements.
  destruct (applyLoop r (recovery r true) [] els0 emptyTransformerResult w1)
    as [[[els err] ch] w2].
  cbn [snd] in Ht2. rewrite Ht1, <- app_assoc in Ht2.
  assert (Hq2 : quiet (t1 ++ t2)) by (apply quiet_app; [exact Hq1|by split]).
  set (q2 := t1 ++ t2) in *.
  assert (Hstop : forall els' err' (w' : World FS) q, trace w' = trace w ++ q -> quiet q ->
            exists t, trace (deferred els' err' w') = trace w ++ t /\
                      afterPush false t = true /\ countEvents isNotify t <= 1 /\
                      noWorkAfterNotice false t = true).
  { intros els' err' w' q Hw' Hq. eexists. rewrite trace_deferred, Hw', <- app_assoc.
    split; [reflexivity|]. apply finish_quiet, quiet_app; [exact Hq|apply results_quiet]. }
  assert (Hpost : forall els' err' (w' w'' : World FS) q tp,
            trace w' = trace w ++ q -> quiet q ->
            trace w'' = trace w' ++ tp ->
            (forall a t2, afterPush a (tp ++ t2) = afterPush true t2) ->
            quiet tp ->
            exists t, trace (postPush r ch els' err' w'') = trace w ++ t /\
                      afterPush false t = true /\ countEvents isNotify t <= 1 /\
                      noWorkAfterNotice false t = true).
  { intros els' err' w' w'' q tp Hw' Hq Hw'' Ha Hn.
    destruct (postPush_trace r ch els' err' w'') as (t & Ht & Hat & Hnt & Hwt).
    exists (q ++ tp ++ t). rewrite Ht, Hw'', Hw', <- !app_assoc.
    split; [reflexivity|]. by apply finish_pushed. }
  destruct (notNil err); [by apply (Hstop els err w2 q2)|].
  destruct (length els =? 0)%nat; [by apply (Hstop els err w2 q2)|].
  set (opts := {| PushUpdateReferenceCallback := callback (cfg_Branch (config r)) |}).
  destruct (Push_trace r opts (backOffProvider r) true w2)
    as (tp & Htp & _ & Hnp & Hpp & _ & Hap).
  unfold Push at 1.
  destruct (backoff_Retry _ _ (backOffProvider r) (true, w2)) as [perr [pushSuccess w3]].
  cbn [snd] in Htp.
  destruct perr as [perr|].
  2:{ destruct (negb pushSuccess); by apply (Hpost els _ w2 w3 q2 tp). }
  destruct (isNonFastForward perr).
  2:{ destruct (errors_Is perr SDeadlineExceeded || errors_Is perr SCanceled);
        by apply (Hpost els _ w2 w3 q2 tp). }
  pose proof (FetchAndReset_trace r w3) as Hf.
  destruct (FetchAndReset r w3) as [ferr w4]. cbn [snd] in Hf.
  assert (Hq4 : quiet (q2 ++ tp ++ [EvFetchAndReset])).
  { apply quiet_app; [exact Hq2|]. apply quiet_app; [by split|].
    apply quiet_cons; [reflexivity..|apply quiet_nil]. }
  assert (Hw4 : trace w4 = trace w ++ q2 ++ tp ++ [EvFetchAndReset]).
  { by rewrite Hf, Htp, Ht2, <- !app_assoc. }
  destruct (notNil ferr); [by apply (Hstop els ferr w4 _ Hw4)|].
  destruct (applyLoop_quiet r false els [] emptyTransformerResult w4)
    as (t5 & Ht5 & _ & Hn5 & Hp5 & _).
  destruct (applyLoop r (recovery r false) [] els emptyTransformerResult w4)
    as [[[els2 err2] ch2] w5].
  cbn [snd] in Ht5.
  assert (Hq5 : quiet ((q2 ++ tp ++ [EvFetchAndReset]) ++ t5)).
  { apply quiet_app; [exact Hq4|by split]. }
  assert (Hw5 : trace w5 = trace w ++ (q2 ++ tp ++ [EvFetchAndReset]) ++ t5).
  { by rewrite Ht5, Hw4, <- !app_assoc. }
  destruct (notNil err2 || (length els2 =? 0)%nat); [by apply (Hstop els2 err2 w5 _ Hw5)|].
  destruct (Push_trace r opts (backOffProvider r) pushSuccess w5)
    as (tp2 & Htp2 & _ & Hnp2 & Hpp2 & _ & Hap2).
  unfold Push.
  destruct (backoff_Retry _ _ (backOffProvider r) (pushSuccess, w5)) as [pushErr [s2 w6]].
  cbn [snd] in Htp2.
  apply (Hpost els2 _ w5 w6 _ tp2 Hw5); [exact Hq5|exact Htp2|exact Hap2|by split].
Qed.

(** ** Scenarios of the specification *)

(** Webhook outage: Argo CD answers 500 three times; the commit is
    pushed, three POSTs are made, the notifier fires once and the caller
    gets nil. *)
Example webhook_outage :
  let e := Examples.elem Examples.liveCtx [Examples.okTransformer "deploy" "app1" "env1"] 1 in
  let w := Examples.worldWith [] [Examples.pushed] []
             [HttpStatus 500; HttpStatus 500; HttpStatus 500] in
  let t := trace (ProcessQueueOnce Examples.testRepo e defaultPushUpdate
                    DefaultPushActionCallback w) in
  applied t = [1] /\
  filter (fun ev => isPushAttempt ev = true) t = [EvPush None true] /\
  countEvents isPost t = 3 /\
  countEvents isNotify t = 1 /\
  sentOn 1 t = [None] /\
  afterSuccessfulPush false t = true.
Proof. repeat split; reflexivity. Qed.

(** Batch coalescing: what is queued behind the first element goes into
    the same push, and every caller gets nil. *)
Example batch_coalescing :
  let e1 := Examples.elem Examples.liveCtx [Examples.okTransformer "one" "app1" "env1"] 1 in
  let e2 := Examples.elem Examples.liveCtx [Examples.okTransformer "two" "app2" "env1"] 2 in
  let e3 := Examples.elem Examples.liveCtx [Examples.okTransformer "three" "app3" "env1"] 3 in
  let w := Examples.worldWith [e2; e3] [Examples.pushed] [] [HttpStatus 200] in
  let w' := ProcessQueueOnce Examples.testRepo e1 defaultPushUpdate
              DefaultPushActionCallback w in
  applied (trace w') = [1; 2; 3] /\
  countEvents isPushAttempt (trace w') = 1 /\
  map c_message (odb w') = ["three"; "two"; "one"] /\
  sentOn 1 (trace w') = [None] /\ sentOn 2 (trace w') = [None] /\
  sentOn 3 (trace w') = [None].
Proof. repeat split; reflexivity. Qed.

(** * Further properties of the code *)

(** ** The author on the wire *)

Section Base64Facts.
#[local] Arguments base64.encodeChar _ : simpl never.
#[local] Arguments base64.decodeChar _ : simpl never.

Lemma decodeChar_encodeChar (x0 x1 x2 x3 x4 x5 : bool) :
  base64.decodeChar (base64.encodeChar (Ascii x0 x1 x2 x3 x4 x5 false false))
  = Some (Ascii x0 x1 x2 x3 x4 x5 false false).
Proof. destruct x0, x1, x2, x3, x4, x5; vm_compute; reflexivity. Qed.

Lemma encodeChar_not_pad (x0 x1 x2 x3 x4 x5 : bool) :
  Ascii.eqb (base64.encodeChar (Ascii x0 x1 x2 x3 x4 x5 false false)) base64.padChar = false.
Proof. destruct x0, x1, x2, x3, x4, x5; vm_compute; reflexivity. Qed.

Lemma encodeChar_not_lineBreak (x0 x1 x2 x3 x4 x5 : bool) :
  base64.isLineBreak (base64.encodeChar (Ascii x0 x1 x2 x3 x4 x5 false false)) = false.
Proof. destruct x0, x1, x2, x3, x4, x5; vm_compute; reflexivity. Qed.

(** Induction on a list three elements at a time. *)
Lemma list_ind3 {A : Type} (P : list A -> Prop) :
  P [] -> (forall a, P [a]) -> (forall a b, P [a; b]) ->
  (forall a b c l, P l -> P (a :: b :: c :: l)) ->
  forall l, P l.
Proof.
  intros H0 H1 H2 H3.
  assert (Hall : forall l, P l /\ (forall a, P (a :: l)) /\ (forall a b, P (a :: b :: l))).
  { induction l as [|x l IH].
    - split; [exact H0 | split; [exact H1 | exact H2]].
    - destruct IH as (IH0 & IH1 & IH2).
      split; [apply IH1 | split; [intros a; apply IH2 | intros a b; apply H3, IH0]]. }
  intros l. destruct (Hall l) as (Hl & _). exact Hl.
Qed.

Lemma decodeQuanta_encode (l : list ascii) :
  base64.decodeQuanta (base64.encode l) = (l, None).
Proof.
  induction l as [|a|a b|a b c l IH] using list_ind3.
  - reflexivity.
  - destruct a as [a0 a1 a2 a3 a4 a5 a6 a7].
    cbn [base64.encode base64.sextets3 zero base64.decodeQuanta].
    rewrite !decodeChar_encodeChar.
    change (Ascii.eqb base64.padChar base64.padChar) with true. cbn iota.
    reflexivity.
  - destruct a as [a0 a1 a2 a3 a4 a5 a6 a7], b as [b0 b1 b2 b3 b4 b5 b6 b7].
    cbn [base64.encode base64.sextets3 zero base64.decodeQuanta].
    rewrite !decodeChar_encodeChar, encodeChar_not_pad.
    change (Ascii.eqb base64.padChar base64.padChar) with true. cbn iota.
    reflexivity.
  - destruct a as [a0 a1 a2 a3 a4 a5 a6 a7], b as [b0 b1 b2 b3 b4 b5 b6 b7],
             c as [c0 c1 c2 c3 c4 c5 c6 c7].
    cbn [base64.encode base64.sextets3 base64.decodeQuanta].
    rewrite !decodeChar_encodeChar, !encodeChar_not_pad, IH.
    reflexivity.
Qed.

Lemma encode_no_lineBreak (l : list ascii) :
  List.filter (fun c => negb (base64.isLineBreak c)) (base64.encode l) = base64.encode l.
Proof.
  assert (Hpad : base64.isLineBreak base64.padChar = false) by reflexivity.
  induction l as [|a|a b|a b c l IH] using list_ind3.
  - reflexivity.
  - destruct a as [a0 a1 a2 a3 a4 a5 a6 a7].
    cbn [base64.encode base64.sextets3 zero List.filter].
    rewrite !encodeChar_not_lineBreak, Hpad. reflexivity.
  - destruct a as [a0 a1 a2 a3 a4 a5 a6 a7], b as [b0 b1 b2 b3 b4 b5 b6 b7].
    cbn [base64.encode base64.sextets3 zero List.filter].
    rewrite !encodeChar_not_lineBreak, Hpad. reflexivity.
  - destruct a as [a0 a1 a2 a3 a4 a5 a6 a7], b as [b0 b1 b2 b3 b4 b5 b6 b7],
             c as [c0 c1 c2 c3 c4 c5 c6 c7].
    cbn [base64.encode base64.sextets3 List.filter].
    rewrite !encodeChar_not_lineBreak. cbn [negb]. rewrite IH. reflexivity.
Qed.

Lemma Decode64_Encode64 (s : string) :
  authwire.Decode64 (authwire.Encode64 s) = (s, None).
Proof.
  unfold authwire.Decode64, authwire.Encode64, base64.DecodeString, base64.EncodeToString.
  rewrite list_ascii_of_string_of_list_ascii, encode_no_lineBreak, decodeQuanta_encode.
  rewrite string_of_list_ascii_of_string. reflexivity.
Qed.

End Base64Facts.

Section WireFacts.
Import authwire.

Lemma md_Get_Append (md : MD) (k v : string) :
  md_Get (md_Append md k v) k = md_Get md k ++ [v].
Proof. unfold md_Append, md_Get, MD in *. rewrite lookup_insert_eq. reflexivity. Qed.

Lemma md_Get_Append_ne (md : MD) (k k' v : string) :
  k <> k' -> md_Get (md_Append md k v) k' = md_Get md k'.
Proof.
  intros Hne. unfold md_Append, md_Get, MD in *. rewrite lookup_insert_ne by exact Hne.
  reflexivity.
Qed.

Lemma Header_Get_Set (h : Header) (k v : string) : Header_Get (Header_Set h k v) k = v.
Proof. unfold Header_Get, Header_Set, Header in *. rewrite lookup_insert_eq. reflexivity. Qed.

Lemma Header_Get_Set_ne (h : Header) (k k' v : string) :
  k <> k' -> Header_Get (Header_Set h k v) k' = Header_Get h k'.
Proof.
  intros Hne. unfold Header_Get, Header_Set, Header in *. rewrite lookup_insert_ne by exact Hne.
  reflexivity.
Qed.

Lemma is_empty_false (s : string) : s <> "" -> auth.is_empty s = false.
Proof. destruct s; [congruence | reflexivity]. Qed.


End WireFacts.

(** X1 (gRPC round trip).  What [WriteUserToGrpcContext] appends to
    metadata that carries no author yet is read back by
    [ReadUserFromGrpcContext] as the same e-mail address and name,
    whatever bytes they hold, provided neither is empty; the role is not
    part of it. *)
Theorem grpc_author_round_trip (md : authwire.MD) (u : auth.User) :
  authwire.md_Get md authwire.HeaderUserEmail = [] ->
  authwire.md_Get md authwire.HeaderUserName = [] ->
  auth.Email u <> "" -> auth.Name u <> "" ->
  authwire.ReadUserFromGrpcContext (Some (authwire.WriteUserToGrpcContext md u)) false
  = inr {| auth.Email := auth.Email u; auth.Name := auth.Name u; auth.DexAuthCtx := None |}.
Proof.
  intros Hemail Hname He Hn.
  unfold authwire.ReadUserFromGrpcContext, authwire.WriteUserToGrpcContext.
  rewrite md_Get_Append_ne by discriminate.
  rewrite md_Get_Append, Hemail. cbn [app].
  rewrite Decode64_Encode64.
  rewrite md_Get_Append, md_Get_Append_ne by discriminate.
  rewrite Hname. cbn [app].
  rewrite Decode64_Encode64.
  rewrite (is_empty_false _ He), (is_empty_false _ Hn). reflexivity.
Qed.

Lemma grpc_author_round_trip_witness :
  authwire.ReadUserFromGrpcContext
    (Some (authwire.WriteUserToGrpcContext ∅ Examples.alice)) false
  = inr Examples.alice.
Proof.
  apply (grpc_author_round_trip ∅ Examples.alice); [reflexivity | reflexivity | | ];
    discriminate.
Defined.

(** X2 (an author is appended, not replaced).  On metadata that already
    carries an e-mail address and a name, [WriteUserToGrpcContext]
    changes nothing of what [ReadUserFromGrpcContext] returns: the
    reader takes the first value of each key, the writer appends. *)
Theorem grpc_author_is_not_replaced (md : authwire.MD) (u : auth.User) (dexEnabled : bool) :
  authwire.md_Get md authwire.HeaderUserEmail <> [] ->
  authwire.md_Get md authwire.HeaderUserName <> [] ->
  authwire.ReadUserFromGrpcContext (Some (authwire.WriteUserToGrpcContext md u)) dexEnabled
  = authwire.ReadUserFromGrpcContext (Some md) dexEnabled.
Proof.
  intros Hemail Hname.
  unfold authwire.ReadUserFromGrpcContext, authwire.WriteUserToGrpcContext.
  rewrite md_Get_Append_ne by discriminate.
  rewrite !md_Get_Append.
  rewrite !(md_Get_Append_ne _ _ authwire.HeaderUserRole) by discriminate.
  rewrite (md_Get_Append_ne _ authwire.HeaderUserEmail authwire.HeaderUserName) by discriminate.
  destruct (authwire.md_Get md authwire.HeaderUserEmail) as [|e0 es]; [congruence|].
  destruct (authwire.md_Get md authwire.HeaderUserName) as [|n0 ns]; [congruence|].
  reflexivity.
Qed.

Lemma grpc_author_is_not_replaced_witness :
  authwire.ReadUserFromGrpcContext
    (Some (authwire.WriteUserToGrpcContext Examples2.mdOfBob Examples.alice)) false
  = authwire.ReadUserFromGrpcContext (Some Examples2.mdOfBob) false.
Proof.
  apply (grpc_author_is_not_replaced Examples2.mdOfBob Examples.alice false); vm_compute; discriminate.
Defined.

(** X3 (HTTP round trip).  After [WriteUserToHttpHeader] and
    [WriteUserRoleToHttpHeader], [ReadUserFromHttpHeader] returns the
    e-mail address, the name and the role that were written, whatever
    the request held before; with an empty name or e-mail address it
    fails. *)
Theorem http_author_round_trip (h : authwire.Header) (u : auth.User) (role : string) :
  authwire.ReadUserFromHttpHeader
    (authwire.WriteUserRoleToHttpHeader (authwire.WriteUserToHttpHeader h u) role)
  = if negb (auth.is_empty (auth.Name u)) && negb (auth.is_empty (auth.Email u))
    then inr {| auth.Email := auth.Email u; auth.Name := auth.Name u;
                auth.DexAuthCtx := Some {| auth.Role := role |} |}
    else inl (authwire.AuthError (ErrText "ExtractUserHttp: did not find data in headers")).
Proof.
  unfold authwire.ReadUserFromHttpHeader, authwire.WriteUserRoleToHttpHeader,
    authwire.WriteUserToHttpHeader.
  rewrite Header_Get_Set.
  rewrite !(Header_Get_Set_ne _ authwire.HeaderUserRole) by discriminate.
  rewrite Header_Get_Set.
  rewrite (Header_Get_Set_ne _ authwire.HeaderUserEmail authwire.HeaderUserName) by discriminate.
  rewrite Header_Get_Set.
  rewrite !Decode64_Encode64. reflexivity.
Qed.

(** X4 (what a reader accepts).  An author that
    [ReadUserFromGrpcContext] or [ReadUserFromHttpHeader] returns has a
    name and an e-mail address that are not empty.  The gRPC reader
    attaches a role exactly when Dex is enabled, the HTTP reader always
    does. *)
Theorem accepted_author_is_complete (incoming : option authwire.MD) (dexEnabled : bool)
    (h : authwire.Header) (u : auth.User) :
  (authwire.ReadUserFromGrpcContext incoming dexEnabled = inr u ->
     auth.Email u <> "" /\ auth.Name u <> ""
     /\ (auth.DexAuthCtx u <> None <-> dexEnabled = true))
  /\ (authwire.ReadUserFromHttpHeader h = inr u ->
        auth.Email u <> "" /\ auth.Name u <> "" /\ auth.DexAuthCtx u <> None).
Proof.
  split.
  - unfold authwire.ReadUserFromGrpcContext. intros Hread.
    destruct incoming as [md|]; [|discriminate].
    destruct (authwire.md_Get md authwire.HeaderUserEmail) as [|e0 es]; [discriminate|].
    destruct (authwire.Decode64 e0) as [mail [?|]]; [discriminate|].
    destruct (authwire.md_Get md authwire.HeaderUserName) as [|n0 ns]; [discriminate|].
    destruct (authwire.Decode64 n0) as [nm [?|]]; [discriminate|].
    destruct (auth.is_empty mail) eqn:Hmail; [discriminate|].
    destruct (auth.is_empty nm) eqn:Hnm; [discriminate|].
    assert (mail <> "") by (intros ->; discriminate).
    assert (nm <> "") by (intros ->; discriminate).
    cbn [orb] in Hread. destruct dexEnabled.
    + destruct (authwire.md_Get md authwire.HeaderUserRole) as [|r0 rs]; [discriminate|].
      destruct (authwire.Decode64 r0) as [rl [?|]]; [discriminate|].
      injection Hread as <-. cbn. repeat split; auto; discriminate.
    + injection Hread as <-. cbn. repeat split; auto; try discriminate; congruence.
  - unfold authwire.ReadUserFromHttpHeader. intros Hread.
    destruct (authwire.Decode64 (authwire.Header_Get h authwire.HeaderUserEmail))
      as [mail [?|]]; [discriminate|].
    destruct (authwire.Decode64 (authwire.Header_Get h authwire.HeaderUserName))
      as [nm [?|]]; [discriminate|].
    destruct (authwire.Decode64 (authwire.Header_Get h authwire.HeaderUserRole))
      as [rl [?|]]; [discriminate|].
    destruct (auth.is_empty nm) eqn:Hnm; [discriminate|].
    destruct (auth.is_empty mail) eqn:Hmail; [discriminate|].
    injection Hread as <-. cbn.
    repeat split; try discriminate; intros ->; discriminate.
Qed.



(** ** The health server *)

Section HealthFacts.
Import setup.

Lemma Health_eqb_eq (a b : Health) : Health_eqb a b = true <-> a = b.
Proof. destruct a, b; cbn; split; congruence. Qed.

Lemma success_loop (l : list (string * report)) (acc : bool) :
  fold_left (fun success kv =>
               if negb (Health_eqb (health (snd kv)) HealthReady) then false else success)
            l acc
  = acc && forallb (fun kv => Health_eqb (health (snd kv)) HealthReady) l.
Proof.
  revert acc. induction l as [|kv l IH]; intros acc; cbn [fold_left forallb].
  - rewrite andb_true_r. reflexivity.
  - rewrite IH. destruct (Health_eqb (health kv.2) HealthReady), acc; reflexivity.
Qed.

Lemma ServeHTTP_status_200 (server : HealthServer) :
  ServeHTTP_status server = 200%Z
  <-> forall nm r, reports server !! nm = Some r -> health r = HealthReady.
Proof.
  unfold ServeHTTP_status. rewrite success_loop. cbn [andb].
  destruct (forallb _ _) eqn:Hall.
  - split; [|reflexivity]. intros _ nm r Hlook.
    rewrite forallb_forall in Hall.
    apply elem_of_map_to_list, list_elem_of_In in Hlook.
    apply Hall in Hlook. apply Health_eqb_eq in Hlook. exact Hlook.
  - split; [discriminate|]. intros Hready. exfalso.
    assert (Htrue : forallb (fun kv : string * report =>
                       Health_eqb (health kv.2) HealthReady)
                      (map_to_list (reports server)) = true).
    { apply forallb_forall. intros [nm r] Hin.
      apply list_elem_of_In, elem_of_map_to_list in Hin.
      apply Health_eqb_eq. exact (Hready nm r Hin). }
    congruence.
Qed.

End HealthFacts.

(** X6 (a report touches one part).  After a reporter has reported a
    health, [IsReady] of its own name holds exactly when the health was
    [HealthReady], and [IsReady] of every other name is as before; the
    first report on a server without parts creates the map.  A [nil]
    reporter changes nothing. *)
Theorem ReportHealth_IsReady (server : setup.HealthServer) (nm : string) (h : setup.Health)
    (message : string) (now : Z) :
  let server' := setup.ReportHealth (Some {| setup.name := nm |}) h message now server in
  setup.IsReady server' nm = setup.Health_eqb h setup.HealthReady
  /\ (forall other, other <> nm -> setup.IsReady server' other = setup.IsReady server other)
  /\ setup.ReportHealth None h message now server = server.
Proof.
  cbn zeta. unfold setup.ReportHealth, setup.IsReady. cbn [setup.parts setup.name].
  split; [|split].
  - rewrite lookup_insert_eq. reflexivity.
  - intros other Hne. rewrite lookup_insert_ne by congruence.
    destruct (setup.parts server) as [m|]; [reflexivity|].
    rewrite lookup_empty. reflexivity.
  - reflexivity.
Qed.

(** X7 (the health endpoint).  [ServeHTTP] answers 200 exactly when
    every part that has reported is ready, and 500 otherwise.  So a
    server no part has reported to answers 200 although [IsReady] is
    false for every name, and [Reporter], which registers its part as
    starting, turns the answer to 500 and [IsReady] of that name to
    false, whatever the part had reported before. *)
Theorem health_endpoint (server : setup.HealthServer) (nm : string) (now : Z) :
  (setup.ServeHTTP_status server = 200%Z
   <-> forall part r, setup.reports server !! part = Some r ->
                      setup.health r = setup.HealthReady)
  /\ (setup.ServeHTTP_status server = 200%Z \/ setup.ServeHTTP_status server = 500%Z)
  /\ (setup.parts server = None ->
      setup.ServeHTTP_status server = 200%Z /\ setup.IsReady server nm = false)
  /\ setup.ServeHTTP_status (snd (setup.Reporter nm now server)) = 500%Z
  /\ setup.IsReady (snd (setup.Reporter nm now server)) nm = false.
Proof.
  split; [apply ServeHTTP_status_200|].
  split.
  { unfold setup.ServeHTTP_status. destruct (fold_left _ _ _); auto. }
  split.
  { intros Hnil. split.
    - apply ServeHTTP_status_200. intros part r. unfold setup.reports. rewrite Hnil.
      rewrite lookup_empty. discriminate.
    - unfold setup.IsReady. rewrite Hnil. reflexivity. }
  split.
  - assert (Hnot : setup.ServeHTTP_status (snd (setup.Reporter nm now server)) <> 200%Z).
    { rewrite ServeHTTP_status_200. intros Hall.
      specialize (Hall nm {| setup.health := setup.HealthStarting;
                             setup.Message := "starting"; setup.Time := now |}).
      unfold setup.Reporter, setup.ReportHealth, setup.reports in Hall.
      cbn [snd setup.parts setup.name] in Hall.
      rewrite lookup_insert_eq in Hall. specialize (Hall eq_refl). discriminate. }
    unfold setup.ServeHTTP_status in *. destruct (fold_left _ _ _); congruence.
  - unfold setup.Reporter, setup.ReportHealth, setup.IsReady.
    cbn [snd setup.parts setup.name]. rewrite lookup_insert_eq. reflexivity.
Qed.

(** ** Garbage collection *)

Lemma applyCalls_length (cfg : GcConfig) (calls : list nat) (wd : Z) :
  length (applyCalls cfg wd calls).2 = length calls.
Proof.
  revert wd. induction calls as [|n calls IH]; intros wd; cbn [applyCalls]; [reflexivity|].
  destruct (Apply_deferred cfg wd n) as [wd1 ran].
  specialize (IH wd1). destruct (applyCalls cfg wd1 calls) as [wd2 rans].
  cbn in *. lia.
Qed.

(** X8 (when garbage collection runs).  For a repository made by [New]:
    unless the git storage back end is chosen and the frequency is not
    zero, no call of [Apply] ever starts a repack (the default back end
    counts as sqlite); otherwise a call starts one exactly when the
    counter, with the transformers of the call added, has reached the
    frequency, and after every call the counter is below the frequency. *)
Theorem gc_schedule (cfg : GcConfig) (writesDone : Z) (calls : list nat) :
  let cfg' := New_gc cfg in
  (cfg_StorageBackend cfg <> GitBackend \/ GcFrequency cfg = 0%Z ->
     (applyCalls cfg' writesDone calls).2 = repeat false (length calls))
  /\ (cfg_StorageBackend cfg = GitBackend -> (0 < GcFrequency cfg)%Z ->
      (forall n,
         (Apply_deferred cfg' writesDone n).2
         = (GcFrequency cfg <=? (writesDone + Z.of_nat n) mod 2 ^ 64)%Z)
      /\ (calls <> [] ->
          (0 <= (applyCalls cfg' writesDone calls).1 < GcFrequency cfg)%Z)).
Proof.
  cbn zeta. split.
  - intros Hoff. revert writesDone.
    assert (Hstep : forall wd n, (Apply_deferred (New_gc cfg) wd n).2 = false).
    { intros wd n. unfold Apply_deferred, maybeGc, New_gc. cbn [cfg_StorageBackend GcFrequency].
      destruct Hoff as [Hb | Hf].
      - destruct (cfg_StorageBackend cfg); cbn; congruence.
      - rewrite Hf. rewrite orb_true_r. reflexivity. }
    induction calls as [|n calls IH]; intros wd; cbn [applyCalls]; [reflexivity|].
    specialize (Hstep wd n).
    destruct (Apply_deferred (New_gc cfg) wd n) as [wd1 ran].
    specialize (IH wd1). destruct (applyCalls (New_gc cfg) wd1 calls) as [wd2 rans].
    cbn in *. congruence.
  - intros Hgit Hfreq.
    assert (Hstep : forall wd n,
              Apply_deferred (New_gc cfg) wd n
              = if (GcFrequency cfg <=? (wd + Z.of_nat n) mod 2 ^ 64)%Z
                then (0%Z, true) else (((wd + Z.of_nat n) mod 2 ^ 64)%Z, false)).
    { intros wd n. unfold Apply_deferred, maybeGc, New_gc. cbn [cfg_StorageBackend GcFrequency].
      rewrite Hgit. cbn [StorageBackend_eqb orb].
      destruct (Z.eqb_spec (GcFrequency cfg) 0); [lia|]. cbn [orb].
      destruct (Z.ltb_spec ((wd + Z.of_nat n) mod 2 ^ 64) (GcFrequency cfg)),
               (Z.leb_spec (GcFrequency cfg) ((wd + Z.of_nat n) mod 2 ^ 64));
        try reflexivity; lia. }
    split.
    + intros n. rewrite Hstep. destruct (_ <=? _)%Z; reflexivity.
    + assert (Hbound : forall wd n,
                (0 <= (Apply_deferred (New_gc cfg) wd n).1 < GcFrequency cfg)%Z).
      { intros wd n. rewrite Hstep.
        destruct (Z.leb_spec (GcFrequency cfg) ((wd + Z.of_nat n) mod 2 ^ 64)); cbn [fst].
        - lia.
        - pose proof (Z.mod_pos_bound (wd + Z.of_nat n) (2 ^ 64) ltac:(lia)). lia. }
      clear Hstep. revert writesDone.
      induction calls as [|n calls IH]; intros wd Hne; [congruence|].
      cbn [applyCalls]. specialize (Hbound wd n).
      destruct (Apply_deferred (New_gc cfg) wd n) as [wd1 ran]. cbn [fst] in Hbound.
      destruct calls as [|m calls'].
      * cbn. exact Hbound.
      * specialize (IH wd1 ltac:(discriminate)).
        destruct (applyCalls (New_gc cfg) wd1 (m :: calls')) as [wd2 rans].
        cbn in *. exact IH.
Qed.

Lemma scanStats_git (lines : list (error + string * Z)) (stats : ObjectCount) :
  Forall isGitCountLine lines ->
  let '(stats', err) := scanStats lines stats in
  err = None
  /\ Count stats' = lastValue "count:" lines (Count stats)
  /\ Size stats' = lastValue "size:" lines (Size stats)
  /\ Packs stats' = lastValue "packs:" lines (Packs stats)
  /\ SizePack stats' = lastValue "size-pack:" lines (SizePack stats)
  /\ Garbage stats' = lastValue "garbage:" lines (Garbage stats)
  /\ InPack stats' = InPack stats
  /\ SizeGarbage stats' = SizeGarbage stats.
Proof.
  intros Hall. revert stats.
  induction Hall as [|l lines Hl _ IH]; intros stats.
  - cbn. repeat split; reflexivity.
  - destruct l as [err | [token value]]; [destruct Hl|].
    cbn [scanStats lastValue].
    specialize (IH (recordStat stats token value)).
    destruct (scanStats lines (recordStat stats token value)) as [stats' err].
    cbn [isGitCountLine gitCountTokens In] in Hl.
    destruct Hl as [<- | [<- | [<- | [<- | [<- | [<- | [<- | [<- | []]]]]]]]];
      cbn in IH |- *; exact IH.
Qed.

(** X9 (what [countObjects] records).  On the output of
    [git count-objects --verbose], whose lines carry the tokens the
    comment in the function lists, [countObjects] returns no error and
    records [count], [size], [packs], [size-pack] and [garbage] by the
    last line of each; [InPack] and [SizeGarbage] stay 0 whatever the
    lines [in-pack:] and [size-garbage:] say, since the function looks
    for the tokens [in-packs:] and [size-garbage]. *)
Theorem countObjects_git_output (lines : list (error + string * Z)) :
  Forall isGitCountLine lines ->
  let '(stats, err) := countObjects (inr lines) in
  err = None
  /\ Count stats = lastValue "count:" lines 0
  /\ Size stats = lastValue "size:" lines 0
  /\ Packs stats = lastValue "packs:" lines 0
  /\ SizePack stats = lastValue "size-pack:" lines 0
  /\ Garbage stats = lastValue "garbage:" lines 0
  /\ InPack stats = 0%Z
  /\ SizeGarbage stats = 0%Z.
Proof.
  intros Hall. unfold countObjects.
  exact (scanStats_git lines zeroObjectCount Hall).
Qed.

Lemma countObjects_git_output_witness :
  let '(stats, err) := countObjects (inr Examples2.gitOutput) in
  err = None
  /\ Count stats = 0%Z /\ Size stats = 0%Z /\ Packs stats = 1%Z /\ SizePack stats = 2845%Z
  /\ Garbage stats = 0%Z /\ InPack stats = 0%Z /\ SizeGarbage stats = 0%Z.
Proof.
  apply (countObjects_git_output Examples2.gitOutput).
  unfold Examples2.gitOutput.
  repeat (apply List.Forall_cons;
    [cbn [isGitCountLine gitCountTokens In];
     repeat (first [left; reflexivity | right]) |]).
  apply List.Forall_nil.
Defined.

(** ** Locks and the deployment queue *)

Section LockFacts.
Context {FS : Type} `{Filesystem FS} `{FilesystemRemove FS} `{GoLib}.

Lemma readOptional_spec (fs : FS) (path : string) :
  match readOptional fs path with
  | inl err => Open fs path = inl err /\ os_IsNotExist err = false
  | inr None => exists err, Open fs path = inl err /\ os_IsNotExist err = true
  | inr (Some cnt) => Open fs path = inr cnt
  end.
Proof.
  unfold readOptional, readFile.
  destruct (Open fs path) as [err|cnt]; [|reflexivity].
  destruct (os_IsNotExist err) eqn:Hne; cbn [negb]; eauto.
Qed.

Lemma readLocks_spec (fs : FS) (base : string) (foundFile : error) (entries : list FileInfo)
    (result : gmap string Lock) :
  match readLocks fs base foundFile entries result with
  | inr m =>
      Forall (fun e => fi_IsDir e = true) entries
      /\ dom m = dom result ∪ list_to_set (map fi_Name entries)
      /\ (forall nm l, m !! nm = Some l ->
            result !! nm = Some l \/ readLock fs (Join fs [base; nm]) = inr l)
  | inl _ =>
      Exists (fun e => fi_IsDir e = false
                       \/ exists err, readLock fs (Join fs [base; fi_Name e]) = inl err)
             entries
  end.
Proof.
  revert result. induction entries as [|e entries IH]; intros result; cbn [readLocks].
  - split; [constructor|]. split.
    { cbn [map list_to_set]. rewrite (right_id_L ∅ (∪)). reflexivity. }
    intros nm l Hl. left. exact Hl.
  - destruct (fi_IsDir e) eqn:Hdir; cbn [negb]; [|left; left; exact Hdir].
    destruct (readLock fs (Join fs [base; fi_Name e])) as [err|lock] eqn:Hlock.
    + left. right. eauto.
    + specialize (IH (<[fi_Name e := lock]> result)).
      destruct (readLocks fs base foundFile entries (<[fi_Name e := lock]> result)) as [err|m].
      * right. exact IH.
      * destruct IH as (Hdirs & Hdom & Hval). split; [constructor; assumption|].
        split.
        { rewrite Hdom, dom_insert_L. cbn [map list_to_set].
          rewrite (comm_L (∪) {[fi_Name e]} (dom result)), <- (assoc_L (∪)). reflexivity. }
        intros nm l Hl. destruct (Hval nm l Hl) as [Hres | Hread]; [|right; exact Hread].
        destruct (decide (fi_Name e = nm)) as [<- | Hne].
        -- rewrite lookup_insert_eq in Hres. right. congruence.
        -- rewrite lookup_insert_ne in Hres by exact Hne. left. exact Hres.
Qed.

Lemma readLocks_empty (fs : FS) (base : string) (foundFile : error) (entries : list FileInfo) :
  locksRead fs base entries (readLocks fs base foundFile entries ∅).
Proof.
  pose proof (readLocks_spec fs base foundFile entries ∅) as Hspec.
  unfold locksRead. destruct (readLocks fs base foundFile entries ∅) as [err|m]; [exact Hspec|].
  destruct Hspec as (Hdirs & Hdom & Hval). split; [exact Hdirs|]. split.
  - rewrite Hdom, dom_empty_L. rewrite (left_id_L ∅ (∪)). reflexivity.
  - intros nm l Hl. destruct (Hval nm l Hl) as [Hres | Hread]; [|exact Hread].
    rewrite lookup_empty in Hres. discriminate.
Qed.

End LockFacts.

(** X10 (locks are read all or nothing).  [GetEnvironmentLocks] and
    [GetEnvironmentApplicationLocks] return a map exactly when every
    entry of the locks directory is a directory whose lock can be read;
    the keys of the map are then the names of the entries, and each
    value is the lock read from the directory of that name.  One loose
    file, or one lock that cannot be read, makes the whole call fail;
    so does a directory that cannot be listed, with the error of the
    listing. *)
Theorem locks_are_read_all_or_nothing {FS : Type} `{Filesystem FS} `{GoLib}
    (s : State FS) (environment application : string) :
  let fs := StFilesystem s in
  let envBase := Join fs ["environments"; environment; "locks"] in
  let appBase := Join fs ["environments"; environment; "applications"; application; "locks"] in
  match ReadDir fs envBase with
  | inr entries => locksRead fs envBase entries (GetEnvironmentLocks s environment)
  | inl err => GetEnvironmentLocks s environment = inl err
  end
  /\ match ReadDir fs appBase with
     | inr entries =>
         locksRead fs appBase entries (GetEnvironmentApplicationLocks s environment application)
     | inl err => GetEnvironmentApplicationLocks s environment application = inl err
     end.
Proof.
  cbn zeta. unfold GetEnvironmentLocks, GetEnvironmentApplicationLocks. split.
  - destruct (ReadDir (StFilesystem s) _) as [err|entries]; [reflexivity|].
    apply readLocks_empty.
  - destruct (ReadDir (StFilesystem s) _) as [err|entries]; [reflexivity|].
    apply readLocks_empty.
Qed.

(** X11 (a lock without metadata).  [readLock] does not fail because a
    file of the lock is absent: the field of an absent file keeps its
    zero value, the field of a present file holds its content (the time
    stamp trimmed and parsed).  It fails only when a file cannot be
    opened for another reason, or when the time stamp does not parse,
    and then with that very error. *)
Theorem readLock_missing_metadata {FS : Type} `{Filesystem FS} `{GoLib}
    (fs : FS) (lockDir : string) :
  match readLock fs lockDir with
  | inr lock =>
      lockField fs lockDir "message" Some "" (Message lock)
      /\ lockField fs lockDir "created_by_email" Some "" (Email (CreatedBy lock))
      /\ lockField fs lockDir "created_by_name" Some "" (Name (CreatedBy lock))
      /\ lockField fs lockDir "created_at"
           (fun cnt => match time_Parse_RFC3339 (strings_TrimSpace cnt) with
                       | inr t => Some t
                       | inl _ => None
                       end)
           zeroTime (CreatedAt lock)
  | inl err => lockFailure fs lockDir err
  end.
Proof.
  unfold readLock, lockField, lockFailure.
  pose proof (readOptional_spec fs (Join fs [lockDir; "message"])) as Hm.
  destruct (readOptional fs (Join fs [lockDir; "message"])) as [err|message].
  { left. exists "message". cbn [In]. tauto. }
  pose proof (readOptional_spec fs (Join fs [lockDir; "created_by_email"])) as He.
  destruct (readOptional fs (Join fs [lockDir; "created_by_email"])) as [err|email].
  { left. exists "created_by_email". cbn [In]. tauto. }
  pose proof (readOptional_spec fs (Join fs [lockDir; "created_by_name"])) as Hn.
  destruct (readOptional fs (Join fs [lockDir; "created_by_name"])) as [err|name].
  { left. exists "created_by_name". cbn [In]. tauto. }
  pose proof (readOptional_spec fs (Join fs [lockDir; "created_at"])) as Ht.
  destruct (readOptional fs (Join fs [lockDir; "created_at"])) as [err|createdAt].
  { left. exists "created_at". cbn [In]. tauto. }
  assert (Hfield : forall (f : string) (v : option string),
            match v with
            | None => exists err, Open fs (Join fs [lockDir; f]) = inl err
                                  /\ os_IsNotExist err = true
            | Some cnt => Open fs (Join fs [lockDir; f]) = inr cnt
            end ->
            match Open fs (Join fs [lockDir; f]) with
            | inr cnt => Some cnt = Some (default "" v)
            | inl err => os_IsNotExist err = true /\ default "" v = ""
            end).
  { intros f [cnt|] Hv.
    - rewrite Hv. reflexivity.
    - destruct Hv as (err & -> & Hne). split; [exact Hne | reflexivity]. }
  destruct createdAt as [cnt|].
  - destruct (time_Parse_RFC3339 (strings_TrimSpace cnt)) as [err|t] eqn:Hparse.
    + right. eauto.
    + cbn [Message CreatedBy CreatedAt Name Email].
      split; [exact (Hfield _ _ Hm)|]. split; [exact (Hfield _ _ He)|].
      split; [exact (Hfield _ _ Hn)|]. rewrite Ht, Hparse. reflexivity.
  - cbn [Message CreatedBy CreatedAt Name Email].
    split; [exact (Hfield _ _ Hm)|]. split; [exact (Hfield _ _ He)|].
    split; [exact (Hfield _ _ Hn)|].
    destruct Ht as (err & -> & Hne). split; [exact Hne | reflexivity].
Qed.



(** X13 ([GetApplicationReleases] sorts what [Releases] lists).  On the
    same directory listing the two functions fail with the same error,
    or return the same release numbers; [GetApplicationReleases]
    returns them in ascending order. *)
Theorem GetApplicationReleases_sorts_Releases {FS : Type} `{Filesystem FS}
    (s : State FS) (application : string) :
  match Releases s application with
  | inr l =>
      exists l', GetApplicationReleases s application = inr l'
                 /\ l' ≡ₚ l /\ StronglySorted Z.le l'
  | inl err => GetApplicationReleases s application = inl err
  end.
Proof.
  unfold Releases, GetApplicationReleases, names.
  destruct (ReadDir (StFilesystem s) _) as [err|entries]; [reflexivity|].
  assert (Hnames : forall acc,
            fold_left (fun result app => result ++ [fi_Name app]) entries acc
            = acc ++ map fi_Name entries).
  { induction entries as [|e entries IH]; intros acc; cbn [fold_left map].
    - rewrite app_nil_r. reflexivity.
    - rewrite IH, <- app_assoc. reflexivity. }
  assert (Hloop : forall acc,
            fold_left (fun result e => appendNumeric result (fi_Name e)) entries acc
            = fold_left appendNumeric (map fi_Name entries) acc).
  { clear Hnames.
    induction entries as [|e entries IH]; intros acc; cbn [fold_left map]; [reflexivity|].
    apply IH. }
  rewrite Hnames, Hloop. cbn [app].
  eexists. split; [reflexivity|]. unfold sort_Slice. split.
  - apply merge_sort_Permutation.
  - apply StronglySorted_merge_sort; apply _.
Qed.

Section TreeConfigFacts.
Context {FS : Type} `{Filesystem FS} `{Host}.

Lemma readEnvironmentConfigs_spec (fs : FS) (envs : list FileInfo)
    (result : gmap string EnvironmentConfig) :
  let file := fun nm => Join fs ["environments"; nm; "config.json"] in
  match readEnvironmentConfigs fs envs result with
  | inr m =>
      dom m = dom result ∪ list_to_set (map fi_Name envs)
      /\ forall nm c, m !! nm = Some c ->
           result !! nm = Some c
           \/ decodeJsonFile fs (file nm) = inr c
           \/ (c = zeroEnvironmentConfig
               /\ exists derr, decodeJsonFile fs (file nm) = inl derr
                               /\ errors_Is derr SNotExist = true)
  | inl err =>
      errors_Is err invalidJson = true
      /\ exists env derr,
           In env envs
           /\ decodeJsonFile fs (file (fi_Name env)) = inl derr
           /\ errors_Is derr SNotExist = false
           /\ err = ErrWrap (file (fi_Name env) +:+ " : ") (ErrSentinel invalidJson)
  end.
Proof.
  cbn zeta. revert result.
  induction envs as [|env envs IH]; intros result; cbn [readEnvironmentConfigs].
  - split.
    + cbn [map list_to_set]. rewrite (right_id_L ∅ (∪)). reflexivity.
    + intros nm c Hc. left. exact Hc.
  - assert (Hstep : forall c0,
              (decodeJsonFile fs (Join fs ["environments"; fi_Name env; "config.json"]) = inr c0
               \/ (c0 = zeroEnvironmentConfig
                   /\ exists derr,
                        decodeJsonFile fs (Join fs ["environments"; fi_Name env; "config.json"])
                        = inl derr /\ errors_Is derr SNotExist = true)) ->
              match readEnvironmentConfigs fs envs (<[fi_Name env := c0]> result) with
              | inr m =>
                  dom m = dom result ∪ list_to_set (map fi_Name (env :: envs))
                  /\ forall nm c, m !! nm = Some c ->
                       result !! nm = Some c
                       \/ decodeJsonFile fs (Join fs ["environments"; nm; "config.json"]) = inr c
                       \/ (c = zeroEnvironmentConfig
                           /\ exists derr,
                                decodeJsonFile fs (Join fs ["environments"; nm; "config.json"])
                                = inl derr /\ errors_Is derr SNotExist = true)
              | inl err =>
                  errors_Is err invalidJson = true
                  /\ exists env0 derr,
                       In env0 (env :: envs)
                       /\ decodeJsonFile fs
                            (Join fs ["environments"; fi_Name env0; "config.json"]) = inl derr
                       /\ errors_Is derr SNotExist = false
                       /\ err = ErrWrap (Join fs ["environments"; fi_Name env0; "config.json"]
                                           +:+ " : ") (ErrSentinel invalidJson)
              end).
    { intros c0 Hc0. specialize (IH (<[fi_Name env := c0]> result)).
      destruct (readEnvironmentConfigs fs envs (<[fi_Name env := c0]> result)) as [err|m].
      - destruct IH as (His & env0 & derr & Hin & Hrest). split; [exact His|].
        exists env0, derr. split; [right; exact Hin | exact Hrest].
      - destruct IH as (Hdom & Hval). split.
        + rewrite Hdom, dom_insert_L. cbn [map list_to_set].
          rewrite (comm_L (∪) {[fi_Name env]} (dom result)), <- (assoc_L (∪)). reflexivity.
        + intros nm c Hc. destruct (Hval nm c Hc) as [Hres | Hread]; [|right; exact Hread].
          destruct (decide (fi_Name env = nm)) as [<- | Hne].
          * rewrite lookup_insert_eq in Hres. injection Hres as <-. right. exact Hc0.
          * rewrite lookup_insert_ne in Hres by exact Hne. left. exact Hres. }
    destruct (decodeJsonFile fs (Join fs ["environments"; fi_Name env; "config.json"]))
      as [derr|config] eqn:Hdec.
    + destruct (errors_Is derr SNotExist) eqn:Hne.
      * apply Hstep. right. split; [reflexivity|]. exists derr. split; [reflexivity | exact Hne].
      * split; [reflexivity|]. exists env, derr.
        split; [left; reflexivity|]. split; [exact Hdec|]. split; [exact Hne | reflexivity].
    + apply Hstep. left. reflexivity.
Qed.

End TreeConfigFacts.

(** X14 (the environments of the repository tree).  Outside bootstrap
    mode, [GetEnvironmentConfigs] returns one entry for each directory
    under [environments]: the decoded [config.json], or the zero
    configuration when the directory has none.  A [config.json] that
    cannot be read or decoded makes the call fail with an error that
    names the file and is [invalidJson] to [errors.Is]. *)
Theorem GetEnvironmentConfigs_tree {FS : Type} `{Filesystem FS} `{Host} (s : State FS)
    (envs : list FileInfo) :
  BootstrapMode s = false ->
  ReadDir (StFilesystem s) "environments" = inr envs ->
  environmentsRead (StFilesystem s) envs (GetEnvironmentConfigs s).
Proof.
  intros Hb Hdir. unfold GetEnvironmentConfigs. rewrite Hb, Hdir.
  pose proof (readEnvironmentConfigs_spec (StFilesystem s) envs ∅) as Hspec.
  cbn zeta in Hspec. unfold environmentsRead.
  destruct (readEnvironmentConfigs (StFilesystem s) envs ∅) as [err|m]; [exact Hspec|].
  destruct Hspec as (Hdom & Hval). split.
  - rewrite Hdom, dom_empty_L, (left_id_L ∅ (∪)). reflexivity.
  - intros nm c Hc. destruct (Hval nm c Hc) as [Hres | Hread]; [|exact Hread].
    rewrite lookup_empty in Hres. discriminate.
Qed.

Lemma GetEnvironmentConfigs_tree_witness :
  let s := Examples.stateOf Examples2.fsEnvs false "" in
  @environmentsRead _ _ (Examples.hostWith []) (StFilesystem s)
    [Examples.dir "dev"; Examples.dir "prod"]
    (@GetEnvironmentConfigs _ _ (Examples.hostWith []) s).
Proof.
  intros s.
  exact (@GetEnvironmentConfigs_tree _ _ (Examples.hostWith []) s
           [Examples.dir "dev"; Examples.dir "prod"] eq_refl eq_refl).
Defined.
